(** * A DPLL satisfiability checker: model and verification

    Shallow embedding of [dpll_sat.py] (classes [Clause] and [CNF]) and of
    [parse_dimacs.py].

    - A literal is a Python [int], hence an unbounded [Z].
    - [Clause.literals] is a Python [set] of ints: a [gset Z].
    - [CNF.clauses] is a Python [set] of [Clause] objects.  [Clause.__eq__]
      and [Clause.__hash__] look at [literals] only, so as a value it is a
      [gset (gset Z)].
    - Methods that mutate [self] return the new state of [self] next to
      their Python return value.
    - Two things are left open by the source: the order in which a Python
      set is iterated (it decides which unit clause is [unit_clauses[0]])
      and the outcome of [random.choice].  Both are read off an explicit
      [oracle], a tape of numbers that the run consumes.
    - Loops and the recursion of [dpll] take fuel; that enough fuel always
      gives a result is a theorem.  The interpreter's limit on the depth of
      the call stack is not part of the model.
    - Module [Py] is a second model of the two classes, with objects on a
      heap, references and mutation in place.  It is shown to compute what
      the value model computes.
    - Module [Repr] holds the two [__repr__] methods, as functions to
      [string]. *)

From Stdlib Require Import ZArith Lia Ascii String.
From stdpp Require Import gmap list sets fin_sets strings pretty sorting.

Set Warnings "-clear-no-such-hyp,-level-tolerance".
Open Scope Z_scope.

(** ** The oracle: iteration order and randomness *)

Definition oracle := list nat.

Definition draw (o : oracle) : nat * oracle :=
  match o with
  | [] => (0%nat, [])
  | r :: o' => (r, o')
  end.

(** [pick l o]: some element of the non-empty list [l], chosen by the next
    number on the tape; [None] on the empty list. *)
Definition pick {A} (l : list A) (o : oracle) : option A * oracle :=
  let '(r, o') := draw o in (l !! (r mod length l)%nat, o').

(** ** class Clause *)

Module Clause.

(** [Clause(literals)]: [self.literals = set(literals)]. *)
Definition init (literals : list Z) : gset Z := list_to_set literals.

(** [__len__] *)
Definition len (self : gset Z) : nat := size self.

(** [__eq__], on two clauses. *)
Definition eq (self other : gset Z) : bool := bool_decide (self = other).

(** [__hash__]: [hash(frozenset(self.literals))].  The built-in hash of
    a frozenset is a function of the set, whatever function it is. *)
Definition hash (frozenset_hash : gset Z → Z) (self : gset Z) : Z :=
  frozenset_hash (list_to_set (elements self)).

(** [dupe]: [Clause(set(self.literals))]. *)
Definition dupe (self : gset Z) : gset Z := init (elements self).

(** [remove]: [self.literals.discard(literal)]. *)
Definition remove (literal : Z) (self : gset Z) : gset Z :=
  self ∖ {[ literal ]}.

End Clause.

(** ** class CNF *)

Module CNF.

Record t := Build {
  clauses : gset (gset Z);
  num_literals : Z;
  num_clauses : Z
}.

(** The assignment [self.clauses = cs]. *)
Definition set_clauses (self : t) (cs : gset (gset Z)) : t :=
  {| clauses := cs;
     num_literals := num_literals self;
     num_clauses := num_clauses self |}.

(** [reduce(operator.or_, [c.literals for c in clauses], set())] *)
Definition literals_of (cs : gset (gset Z)) : gset Z :=
  foldl (∪) ∅ (elements cs).

Definition get_literals (self : t) : gset Z := literals_of (clauses self).

(** [CNF(clauses, num_literals, num_clauses)] with the two optional
    arguments. *)
Definition init (cl : list (gset Z)) (nl nc : option Z) : t :=
  let cs : gset (gset Z) := list_to_set cl in
  {| clauses := cs;
     num_literals :=
       match nl with
       | Some n => n
       | None => Z.of_nat (size (literals_of cs))
       end;
     num_clauses :=
       match nc with
       | Some n => n
       | None => Z.of_nat (size cs)
       end |}.

(** [CNF(clauses)] *)
Definition of_list (cl : list (gset Z)) : t := init cl None None.

Definition add_literal (self : t) (literal : Z) : t :=
  let new_clauses := (Clause.dupe <$> elements (clauses self))
                       ++ [Clause.init [literal]] in
  of_list new_clauses.

Definition is_sat (self : t) : bool :=
  bool_decide (size (clauses self) = 0%nat).

Definition is_unsat (self : t) : bool :=
  existsb (λ c, bool_decide (Clause.len c = 0%nat)) (elements (clauses self)).

(** One round of the [for clause in self.clauses] loop of [apply_pure];
    the loop state is [(clauses_to_keep, removed_count)]. *)
Definition pure_body (pure_set : gset Z)
    (st : gset (gset Z) * nat) (clause : gset Z) : gset (gset Z) * nat :=
  if bool_decide (clause ∩ pure_set = ∅)
  then ({[ clause ]} ∪ st.1, st.2)
  else (st.1, S st.2).

Definition apply_pure (self : t) : bool * t :=
  let all_literals := get_literals self in
  let pure_set := filter (λ l, - l ∉ all_literals) all_literals in
  if bool_decide (pure_set = ∅) then (false, self)
  else
    let '(clauses_to_keep, removed_count) :=
      foldl (pure_body pure_set) (∅, 0%nat) (elements (clauses self)) in
    (bool_decide (0 < removed_count)%nat, set_clauses self clauses_to_keep).

(** One round of the [for other_clause in self.clauses] loop of
    [apply_unit]; the loop state is [new_clauses]. *)
Definition unit_body (unit_clause : gset Z) (unit_literal : Z)
    (new_clauses : gset (gset Z)) (other_clause : gset Z) : gset (gset Z) :=
  if Clause.eq other_clause unit_clause then new_clauses
  else if bool_decide (unit_literal ∈ other_clause) then new_clauses
  else if bool_decide (- unit_literal ∈ other_clause) then
    {[ Clause.remove (- unit_literal) (Clause.dupe other_clause) ]}
      ∪ new_clauses
  else {[ other_clause ]} ∪ new_clauses.

(** [unit_clauses[0]] is the unit clause that the iteration over the set
    meets first; the oracle says which one that is.  The tuple pattern
    [(unit_literal,) = ...] raises on a set that is not a singleton, which
    a clause of length 1 never is; that branch reports [false]. *)
Definition apply_unit (o : oracle) (self : t) : bool * t * oracle :=
  let unit_clauses :=
    filter (λ c, Clause.len c = 1%nat) (elements (clauses self)) in
  match pick unit_clauses o with
  | (None, _) => (false, self, o)
  | (Some unit_clause, o') =>
      match elements unit_clause with
      | [unit_literal] =>
          let new_clauses :=
            foldl (unit_body unit_clause unit_literal) ∅
                  (elements (clauses self)) in
          (true, set_clauses self new_clauses, o')
      | _ => (false, self, o')
      end
  end.

(** What the first [while] loop of [dpll] hands on: either the method
    returned from inside the loop, or the loop ended. *)
Inductive flow :=
| Returned (b : bool) (o : oracle)
| Fell (self : t) (o : oracle).

(** [while self.apply_unit(): if self.is_unsat(): return False] *)
Fixpoint unit_loop (fuel : nat) (o : oracle) (self : t) : option flow :=
  match fuel with
  | O => None
  | S fuel =>
      let '(found, self', o') := apply_unit o self in
      if found then
        if is_unsat self' then Some (Returned false o')
        else unit_loop fuel o' self'
      else Some (Fell self' o')
  end.

(** [while self.apply_pure(): pass] *)
Fixpoint pure_loop (fuel : nat) (self : t) : option t :=
  match fuel with
  | O => None
  | S fuel =>
      let '(removed, self') := apply_pure self in
      if removed then pure_loop fuel self' else Some self'
  end.

(** [apply_split], with the recursive call to [dpll] as a parameter.  The
    Python [or] evaluates its right operand only when the left one is
    false. *)
Definition apply_split (dpll : oracle → t → option (bool * oracle))
    (o : oracle) (self : t) : option (bool * oracle) :=
  let literals := get_literals self in
  match pick (elements literals) o with
  | (None, _) => Some (false, o)
  | (Some split_literal, o1) =>
      match dpll o1 (add_literal self split_literal) with
      | None => None
      | Some (true, o2) => Some (true, o2)
      | Some (false, o2) => dpll o2 (add_literal self (- split_literal))
      end
  end.

(** [dpll]; [fuel] bounds the number of loop rounds and the depth of the
    recursion, [None] means the bound was hit. *)
Fixpoint dpll_fuel (fuel : nat) (o : oracle) (self : t)
    : option (bool * oracle) :=
  match fuel with
  | O => None
  | S fuel' =>
      match unit_loop fuel o self with
      | None => None
      | Some (Returned b o1) => Some (b, o1)
      | Some (Fell self1 o1) =>
          match pure_loop fuel self1 with
          | None => None
          | Some self2 =>
              if is_sat self2 then Some (true, o1)
              else if is_unsat self2 then Some (false, o1)
              else apply_split (dpll_fuel fuel') o1 self2
          end
      end
  end.

(** The variables of a formula: the absolute values of its literals. *)
Definition variables (self : t) : gset Z :=
  set_map Z.abs (get_literals self).

(** [dpll] with a bound that always suffices (see [dpll_total]). *)
Definition dpll (o : oracle) (self : t) : option (bool * oracle) :=
  dpll_fuel (size (variables self) + 2) o self.

End CNF.

(** ** parse_dimacs.py

    The file is what [f.readlines()] returns: its lines, each with its line
    break.  Text is ASCII; [int] is Python's conversion of a token without
    white space: an optional sign, then decimal digits, single underscores
    allowed between digits.  An exception ends the run with [inl]; what
    [print] writes is collected in [stdout]. *)

Module Dimacs.

Inductive ParserState := INIT | PROB.

(** The texts of the source, with the values they are formatted with. *)
Inductive message :=
| Unexpected_character (line_num : nat) (c : ascii)
| Invalid_number_of_literals (line_num : nat) (tok : string)
| Invalid_number_of_clauses (line_num : nat) (tok : string)
| Invalid_literal_value (line_num : nat) (tok : string)
| Zero_not_final (line_num index : nat)
| Non_CNF_unsupported
| Last_clause_not_terminated (discarded : nat).

Inductive exn :=
| ValueError (msg : message)
| AssertionError (msg : option message)
| UnboundLocalError (name : string).

(** [str.isspace] on ASCII. *)
Definition is_space (c : ascii) : bool :=
  let n := nat_of_ascii c in
  ((9 <=? n) && (n <=? 13) || (28 <=? n) && (n <=? 32))%nat.

Definition is_digit (c : ascii) : bool :=
  let n := nat_of_ascii c in ((48 <=? n) && (n <=? 57))%nat.

Fixpoint lstrip (l : list ascii) : list ascii :=
  match l with
  | c :: l' => if is_space c then lstrip l' else l
  | [] => []
  end.

(** [str.rstrip()] *)
Definition rstrip (l : list ascii) : list ascii := rev (lstrip (rev l)).

(** [str.split()]: the maximal runs of characters that are not white
    space; [cur] is the run being read, reversed. *)
Fixpoint split_from (cur : list ascii) (l : list ascii)
    : list (list ascii) :=
  match l with
  | [] => match cur with [] => [] | _ => [rev cur] end
  | c :: l' =>
      if is_space c then
        match cur with
        | [] => split_from [] l'
        | _ => rev cur :: split_from [] l'
        end
      else split_from (c :: cur) l'
  end.

Definition split (l : list ascii) : list (list ascii) := split_from [] l.

(** The digits of [int]; [after_digit] says whether the character before
    was a digit, which is where an underscore or the end may come. *)
Fixpoint int_digits (acc : Z) (after_digit : bool) (l : list ascii)
    : option Z :=
  match l with
  | [] => if after_digit then Some acc else None
  | c :: l' =>
      if is_digit c then
        int_digits (10 * acc + Z.of_nat (nat_of_ascii c - 48)) true l'
      else if Ascii.eqb c "_" then
        if after_digit then int_digits acc false l' else None
      else None
  end.

(** [int(tok)]; [None] is [ValueError]. *)
Definition int (tok : list ascii) : option Z :=
  match tok with
  | c :: l' =>
      if Ascii.eqb c "-" then Z.opp <$> int_digits 0 false l'
      else if Ascii.eqb c "+" then int_digits 0 false l'
      else int_digits 0 false tok
  | [] => None
  end.

(** The local variables of [parse_dimacs] that live across lines.
    [literal] is unbound until the first successful [int]. *)
Record locals := Locals {
  parser_state : ParserState;
  num_literals : Z;
  num_clauses : Z;
  clauses : list (gset Z);
  current_literals : gset Z;
  literal : option Z;
  stdout : list message
}.

(** The variables of the loop over the tokens of a clause line. *)
Record line_locals := LineLocals {
  literals : gset Z;
  final_line : bool;
  ll_literal : option Z;
  ll_stdout : list message
}.

(** One round of [for index, literal_str in enumerate(literal_strs)]. *)
Definition token_step (line_num len : nat) (st : line_locals)
    (index : nat) (literal_str : list ascii) : exn + line_locals :=
  if bool_decide (literal_str = ["0"%char]) then
    if bool_decide (index = len - 1)%nat then
      inr (LineLocals (literals st) true (ll_literal st) (ll_stdout st))
    else inl (AssertionError (Some (Zero_not_final line_num index)))
  else
    let '(literal, out) :=
      match int literal_str with
      | Some n => (Some n, ll_stdout st)
      | None =>
          (ll_literal st,
           ll_stdout st ++
             [Invalid_literal_value line_num
                (string_of_list_ascii literal_str)])
      end in
    match literal with
    | None => inl (UnboundLocalError "literal")
    | Some n =>
        inr (LineLocals ({[ n ]} ∪ literals st) (final_line st)
               literal out)
    end.

Fixpoint token_loop (line_num len : nat) (st : line_locals)
    (index : nat) (toks : list (list ascii)) : exn + line_locals :=
  match toks with
  | [] => inr st
  | tok :: toks' =>
      match token_step line_num len st index tok with
      | inl e => inl e
      | inr st' => token_loop line_num len st' (S index) toks'
      end
  end.

(** The header line, in state [INIT]. *)
Definition header_line (line_num : nat) (line : list ascii) (st : locals)
    : exn + locals :=
  let prob_info := split line in
  match prob_info with
  | [p; fmt; nl; nc] =>
      if negb (bool_decide (p = ["p"%char])) then inl (AssertionError None)
      else if negb (bool_decide (fmt = ["c"; "n"; "f"]%char)) then
        inl (AssertionError (Some Non_CNF_unsupported))
      else
        let '(num_literals', out1) :=
          match int nl with
          | Some n => (n, stdout st)
          | None =>
              (num_literals st,
               stdout st ++ [Invalid_number_of_literals line_num
                               (string_of_list_ascii nl)])
          end in
        let '(num_clauses', out2) :=
          match int nc with
          | Some n => (n, out1)
          | None =>
              (num_clauses st,
               out1 ++ [Invalid_number_of_clauses line_num
                          (string_of_list_ascii nc)])
          end in
        inr (Locals PROB num_literals' num_clauses' (clauses st)
               (current_literals st) (literal st) out2)
  | _ => inl (AssertionError None)
  end.

(** A clause line, in state [PROB]. *)
Definition clause_line (line_num : nat) (line : list ascii) (st : locals)
    : exn + locals :=
  let literal_strs := split line in
  match token_loop line_num (length literal_strs)
          (LineLocals ∅ false (literal st) (stdout st)) 0 literal_strs with
  | inl e => inl e
  | inr ll =>
      let current := current_literals st ∪ literals ll in
      if final_line ll then
        inr (Locals PROB (num_literals st) (num_clauses st)
               (clauses st ++ [Clause.init (elements current)])
               ∅ (ll_literal ll) (ll_stdout ll))
      else
        inr (Locals PROB (num_literals st) (num_clauses st)
               (clauses st) current (ll_literal ll) (ll_stdout ll))
  end.

(** One round of [for line_num, line in enumerate(f.readlines())]. *)
Definition line_step (line_num : nat) (raw : string) (st : locals)
    : exn + locals :=
  let line := rstrip (list_ascii_of_string raw) in
  match line with
  | [] => inr st
  | c0 :: _ =>
      if Ascii.eqb c0 "c" then inr st
      else
        match parser_state st with
        | INIT =>
            if negb (Ascii.eqb c0 "p") then
              inl (ValueError (Unexpected_character line_num c0))
            else header_line line_num line st
        | PROB => clause_line line_num line st
        end
  end.

Fixpoint line_loop (line_num : nat) (lines : list string) (st : locals)
    : exn + locals :=
  match lines with
  | [] => inr st
  | raw :: lines' =>
      match line_step line_num raw st with
      | inl e => inl e
      | inr st' => line_loop (S line_num) lines' st'
      end
  end.

Definition parse_dimacs (lines : list string)
    : exn + (CNF.t * list message) :=
  match line_loop 0 lines (Locals INIT (-1) (-1) [] ∅ None []) with
  | inl e => inl e
  | inr st =>
      if negb (bool_decide (current_literals st = ∅)) then
        inl (ValueError
               (Last_clause_not_terminated (size (current_literals st))))
      else
        inr (CNF.init (clauses st)
               (Some (num_literals st)) (Some (num_clauses st)),
             stdout st)
  end.

End Dimacs.

(** ** The same classes as objects on a heap

    The model above treats a formula as a value.  The Python objects are
    mutable and are passed by reference: [apply_unit] and [apply_pure] put
    the very [Clause] objects of the old set into the new one, and
    [Clause.remove] changes a clause in place.  [Py] models this: objects
    live on a heap, methods take references and run in a state monad.

    - A [Clause] object holds its set of literals.  The [set] object itself
      is not shared with anything: [Clause.__init__] copies its argument.
    - A [CNF] object holds its set of [Clause] objects.  A Python set finds
      its members by [__hash__] and [__eq__], for a [Clause] by its
      literals at the time it was added: the set is a map from literal
      sets to the references of the members.  It is iterated key by key.
    - [None] is a run that is stuck (an attribute of the wrong class) or
      out of fuel. *)

Module Py.

Abbreviation loc := nat (only parsing).

Inductive obj :=
| OClause (literals : gset Z)
| OCNF (clauses : gmap (gset Z) loc) (num_literals num_clauses : Z).

Abbreviation heap := (gmap loc obj) (only parsing).

Definition M (A : Type) : Type := heap → option (A * heap).

Definition ret {A} (a : A) : M A := λ h, Some (a, h).

Definition bind {A B} (m : M A) (k : A → M B) : M B :=
  λ h, match m h with
       | Some (a, h') => k a h'
       | None => None
       end.

Notation "'let!' x ':=' m 'in' k" := (bind m (λ x, k))
  (at level 10, x name, m at level 100, k at level 200).

Fixpoint foldM {A B} (f : B → A → M B) (b : B) (l : list A) : M B :=
  match l with
  | [] => ret b
  | a :: l' => let! b' := f b a in foldM f b' l'
  end.

Fixpoint mapM {A B} (f : A → M B) (l : list A) : M (list B) :=
  match l with
  | [] => ret []
  | a :: l' => let! b := f a in let! bs := mapM f l' in ret (b :: bs)
  end.

(** A new object, at an address that is not in use. *)
Definition alloc (o : obj) : M loc :=
  λ h, let l := fresh (dom h) in Some (l, <[ l := o ]> h).

(** [c.literals], read and written. *)
Definition get_lits (c : loc) : M (gset Z) :=
  λ h, match h !! c with
       | Some (OClause ls) => Some (ls, h)
       | _ => None
       end.

Definition put_lits (c : loc) (ls : gset Z) : M unit :=
  λ h, match h !! c with
       | Some (OClause _) => Some ((), <[ c := OClause ls ]> h)
       | _ => None
       end.

(** [f.clauses], read and assigned. *)
Definition get_clauses (f : loc) : M (gmap (gset Z) loc) :=
  λ h, match h !! f with
       | Some (OCNF s _ _) => Some (s, h)
       | _ => None
       end.

Definition put_clauses (f : loc) (s : gmap (gset Z) loc) : M unit :=
  λ h, match h !! f with
       | Some (OCNF _ nl nc) => Some ((), <[ f := OCNF s nl nc ]> h)
       | _ => None
       end.

(** The members of a set of clauses, in iteration order. *)
Definition members (s : gmap (gset Z) loc) : list loc :=
  omap (λ k, s !! k) (elements (dom s)).

(** [s.add(c)]: nothing happens if a clause equal to [c] is a member. *)
Definition set_add (s : gmap (gset Z) loc) (c : loc)
    : M (gmap (gset Z) loc) :=
  let! ls := get_lits c in
  ret (match s !! ls with
       | Some _ => s
       | None => <[ ls := c ]> s
       end).

(** *** class Clause *)

Definition Clause_init (literals : list Z) : M loc :=
  alloc (OClause (list_to_set literals)).

Definition Clause_len (self : loc) : M nat :=
  let! ls := get_lits self in ret (size ls).

Definition Clause_eq (self other : loc) : M bool :=
  let! a := get_lits self in
  let! b := get_lits other in
  ret (bool_decide (a = b)).

Definition Clause_dupe (self : loc) : M loc :=
  let! ls := get_lits self in Clause_init (elements ls).

Definition Clause_remove (self : loc) (literal : Z) : M unit :=
  let! ls := get_lits self in put_lits self (ls ∖ {[ literal ]}).

(** *** class CNF *)

(** [reduce(operator.or_, [c.literals for c in s], set())] *)
Definition literals_of (s : gmap (gset Z) loc) : M (gset Z) :=
  let! sets := mapM get_lits (members s) in
  ret (foldl (∪) ∅ sets).

Definition get_literals (self : loc) : M (gset Z) :=
  let! s := get_clauses self in literals_of s.

Definition CNF_init (cl : list loc) (nl nc : option Z) : M loc :=
  let! s := foldM set_add ∅ cl in
  let! n_literals :=
    match nl with
    | Some n => ret n
    | None => let! ls := literals_of s in ret (Z.of_nat (size ls))
    end in
  let n_clauses :=
    match nc with
    | Some n => n
    | None => Z.of_nat (size s)
    end in
  alloc (OCNF s n_literals n_clauses).

Definition add_literal (self : loc) (literal : Z) : M loc :=
  let! s := get_clauses self in
  let! new_clauses := mapM Clause_dupe (members s) in
  let! unit_clause := Clause_init [literal] in
  CNF_init (new_clauses ++ [unit_clause]) None None.

Definition is_sat (self : loc) : M bool :=
  let! s := get_clauses self in ret (bool_decide (size s = 0%nat)).

Definition is_unsat (self : loc) : M bool :=
  let! s := get_clauses self in
  let! lens := mapM Clause_len (members s) in
  ret (existsb (λ n, bool_decide (n = 0%nat)) lens).

Definition pure_body (pure_set : gset Z)
    (st : gmap (gset Z) loc * nat) (clause : loc)
    : M (gmap (gset Z) loc * nat) :=
  let! ls := get_lits clause in
  if bool_decide (ls ∩ pure_set = ∅) then
    let! keep := set_add st.1 clause in ret (keep, st.2)
  else ret (st.1, S st.2).

Definition apply_pure (self : loc) : M bool :=
  let! all_literals := get_literals self in
  let pure_set := filter (λ l, - l ∉ all_literals) all_literals in
  if bool_decide (pure_set = ∅) then ret false
  else
    let! s := get_clauses self in
    let! st := foldM (pure_body pure_set) (∅, 0%nat) (members s) in
    let '(clauses_to_keep, removed_count) := st in
    let! _ := put_clauses self clauses_to_keep in
    ret (bool_decide (0 < removed_count)%nat).

Definition unit_body (unit_clause : loc) (unit_literal : Z)
    (new_clauses : gmap (gset Z) loc) (other_clause : loc)
    : M (gmap (gset Z) loc) :=
  let! same := Clause_eq other_clause unit_clause in
  if same then ret new_clauses
  else
    let! ls := get_lits other_clause in
    if bool_decide (unit_literal ∈ ls) then ret new_clauses
    else if bool_decide (- unit_literal ∈ ls) then
      let! simplified_clause := Clause_dupe other_clause in
      let! _ := Clause_remove simplified_clause (- unit_literal) in
      set_add new_clauses simplified_clause
    else set_add new_clauses other_clause.

(** [[c for c in l if len(c) == 1]] *)
Fixpoint unit_clauses_of (l : list loc) : M (list loc) :=
  match l with
  | [] => ret []
  | c :: l' =>
      let! n := Clause_len c in
      let! r := unit_clauses_of l' in
      ret (if bool_decide (n = 1%nat) then c :: r else r)
  end.

Definition apply_unit (o : oracle) (self : loc) : M (bool * oracle) :=
  let! s := get_clauses self in
  let! unit_clauses := unit_clauses_of (members s) in
  match pick unit_clauses o with
  | (None, _) => ret (false, o)
  | (Some unit_clause, o') =>
      let! uls := get_lits unit_clause in
      match elements uls with
      | [unit_literal] =>
          let! new_clauses :=
            foldM (unit_body unit_clause unit_literal) ∅ (members s) in
          let! _ := put_clauses self new_clauses in
          ret (true, o')
      | _ => ret (false, o')
      end
  end.

(** The first loop of [dpll]: [inl] if the method returned from inside
    the loop, [inr] if the loop ended. *)
Fixpoint unit_loop (fuel : nat) (o : oracle) (self : loc)
    : M (bool * oracle + oracle) :=
  match fuel with
  | O => λ _, None
  | S fuel =>
      let! r := apply_unit o self in
      let '(found, o') := r in
      if found then
        let! e := is_unsat self in
        if e then ret (inl (false, o')) else unit_loop fuel o' self
      else ret (inr o')
  end.

Fixpoint pure_loop (fuel : nat) (self : loc) : M unit :=
  match fuel with
  | O => λ _, None
  | S fuel =>
      let! removed := apply_pure self in
      if removed then pure_loop fuel self else ret ()
  end.

Definition apply_split (dpll : oracle → loc → M (bool * oracle))
    (o : oracle) (self : loc) : M (bool * oracle) :=
  let! literals := get_literals self in
  match pick (elements literals) o with
  | (None, _) => ret (false, o)
  | (Some split_literal, o1) =>
      let! left := add_literal self split_literal in
      let! r := dpll o1 left in
      let '(b, o2) := r in
      if b then ret (true, o2)
      else
        let! right := add_literal self (- split_literal) in
        dpll o2 right
  end.

Fixpoint dpll (fuel : nat) (o : oracle) (self : loc) : M (bool * oracle) :=
  match fuel with
  | O => λ _, None
  | S fuel' =>
      let! r := unit_loop fuel o self in
      match r with
      | inl (b, o1) => ret (b, o1)
      | inr o1 =>
          let! _ := pure_loop fuel self in
          let! sat := is_sat self in
          if sat then ret (true, o1)
          else
            let! unsat := is_unsat self in
            if unsat then ret (false, o1)
            else apply_split (dpll fuel') o1 self
      end
  end.

(** A formula from lists of literals, as the tests build it:
    [CNF([Clause({..}), ..])]. *)
Definition mk (cl : list (list Z)) : M loc :=
  let! cs := mapM Clause_init cl in CNF_init cs None None.

End Py.

(** ** __repr__

    [str] of an [int] is its decimal numeral, with [-] before a negative
    one; [sorted] puts integers in ascending order.  The text of a formula
    depends on the order in which its set of clauses is iterated, which is
    an argument here. *)

Module Repr.

(** [str(n)] for an [int]. *)
Definition str (n : Z) : string := pretty n.

(** [sep.join(l)] *)
Fixpoint join (sep : string) (l : list string) : string :=
  match l with
  | [] => ""
  | [x] => x
  | x :: l' => x +:+ sep +:+ join sep l'
  end.

(** [sorted(s)] for a set of integers. *)
Definition sorted (s : gset Z) : list Z := merge_sort Z.le (elements s).

(** [Clause.__repr__] *)
Definition Clause_repr (self : gset Z) : string :=
  "(" +:+ join ", " (str <$> sorted self) +:+ ")".

(** [CNF.__repr__], for the clauses in the order [order] of iteration. *)
Definition CNF_repr (order : list (gset Z)) : string :=
  "CNF: {" +:+ join " ^ " (Clause_repr <$> order) +:+ "}".

End Repr.

(** * The vocabulary of the properties

    What the statements below are written with: the set comprehensions
    behind the two simplification rules, satisfiability, the measure of the
    search, the relation between a heap and the value it holds, and the
    formulas the examples run on. *)

(** A formula from lists of literals, as the tests build it:
    [CNF([Clause({..}), ..])]. *)
Definition mk (cl : list (list Z)) : CNF.t :=
  CNF.of_list (Clause.init <$> cl).

(** The boolean that [dpll] returns on such a formula. *)
Definition decide_with (o : oracle) (cl : list (list Z)) : option bool :=
  fst <$> CNF.dpll o (mk cl).

(** The clauses without [u], each with [-u] taken out. *)
Definition propagate (u : Z) (cs : gset (gset Z)) : gset (gset Z) :=
  set_map (λ c : gset Z, c ∖ {[ - u ]}) (filter (λ c : gset Z, u ∉ c) cs).

(** The formula has a clause of length 1. *)
Definition has_unit (F : CNF.t) : Prop :=
  ∃ c, c ∈ CNF.clauses F ∧ size c = 1%nat.

(** The literals whose negation occurs nowhere in the formula. *)
Definition pure_literals (cs : gset (gset Z)) : gset Z :=
  filter (λ l, - l ∉ CNF.literals_of cs) (CNF.literals_of cs).

(** The clauses that hold no literal of [P]. *)
Definition purge (P : gset Z) (cs : gset (gset Z)) : gset (gset Z) :=
  filter (λ c : gset Z, c ∩ P = ∅) cs.

(** An assignment gives a truth value to every variable; variable [v] is
    written [v] as a positive literal and [-v] as a negative one. *)
Definition assignment := Z → bool.

(** The truth value of a literal: that of its variable, negated for a
    negative literal. *)
Definition lit_true (a : assignment) (l : Z) : bool :=
  if 0 <? l then a (Z.abs l) else negb (a (Z.abs l)).

(** A clause is a disjunction, a formula a conjunction of clauses. *)
Definition clause_true (a : assignment) (c : gset Z) : Prop :=
  ∃ l, l ∈ c ∧ lit_true a l = true.

Definition satisfies (a : assignment) (cs : gset (gset Z)) : Prop :=
  ∀ c, c ∈ cs → clause_true a c.

Definition satisfiable (cs : gset (gset Z)) : Prop := ∃ a, satisfies a cs.

(** All literals of the formula are non-zero. *)
Definition nonzero (cs : gset (gset Z)) : Prop := 0 ∉ CNF.literals_of cs.

(** [force u a]: the assignment [a], changed at the variable of [u] so
    that [u] holds. *)
Definition force (u : Z) (a : assignment) : assignment :=
  λ v, if bool_decide (v = Z.abs u) then 0 <? u else a v.

(** The assignment that makes every literal of [P] true and agrees with
    [a] elsewhere. *)
Definition force_all (P : gset Z) (a : assignment) : assignment :=
  λ v, if bool_decide (v ∈ P) then true
       else if bool_decide (- v ∈ P) then false else a v.

(** The variables of a set of clauses; [CNF.variables] on the record. *)
Definition vars (cs : gset (gset Z)) : gset Z :=
  set_map Z.abs (CNF.literals_of cs).

(** What the unit-propagation loop guarantees about its outcome. *)
Definition unit_loop_post (F : CNF.t) (r : CNF.flow) : Prop :=
  match r with
  | CNF.Returned b _ => b = false ∧ ¬ satisfiable (CNF.clauses F)
  | CNF.Fell F1 _ =>
      ¬ has_unit F1 ∧
      (satisfiable (CNF.clauses F1) ↔ satisfiable (CNF.clauses F)) ∧
      CNF.variables F1 ⊆ CNF.variables F ∧
      (has_unit F →
       (size (CNF.variables F1) < size (CNF.variables F))%nat)
  end.

(** Every member of the set is a [Clause] object that holds the literals
    it is filed under. *)
Definition valid_set (h : Py.heap) (s : gmap (gset Z) Py.loc) : Prop :=
  map_Forall (λ k c, h !! c = Some (Py.OClause k)) s.

(** The object at [f] is a [CNF] whose value is [F]. *)
Definition repr (h : Py.heap) (f : Py.loc) (F : CNF.t) : Prop :=
  ∃ s, h !! f = Some (Py.OCNF s (CNF.num_literals F) (CNF.num_clauses F)) ∧
       dom s = CNF.clauses F ∧ valid_set h s.

(** [h'] has every object of [h] as it was, but possibly the one at [f]. *)
Definition frame (f : Py.loc) (h h' : Py.heap) : Prop :=
  ∀ l x, h !! l = Some x → l ≠ f → h' !! l = Some x.

(** A list of clause values with a reference to an object for each. *)
Definition points_to (h : Py.heap) (kcs : list (gset Z * Py.loc)) : Prop :=
  Forall (λ kc, h !! kc.2 = Some (Py.OClause kc.1)) kcs.

(** The outcome of [CNF.unit_loop] as [Py.unit_loop] returns it: the
    formula is not part of the result there, it is the object itself. *)
Definition flow_tag (r : CNF.flow) : bool * oracle + oracle :=
  match r with
  | CNF.Returned b o => inl (b, o)
  | CNF.Fell _ o => inr o
  end.

(** Closes a decidable closed goal by evaluating its decision procedure. *)
Ltac by_eval := refine (bool_decide_unpack _ _); vm_compute; exact I.

(** The formula of [test_06_simple_splitting_sat]. *)
Definition ex_split : CNF.t := mk [[1; 2]; [-1; -2]].

(** The heap that [Py.mk [[1; 2]; [-1; -2]]] builds from the empty one: the
    two clauses at 0 and 1, the formula at 2. *)
Definition ex_heap : gmap nat Py.obj :=
  <[ 2%nat := Py.OCNF {[ {[ 1; 2 ]} := 0%nat; {[ -1; -2 ]} := 1%nat ]} 4 2 ]>
    (<[ 1%nat := Py.OClause {[ -1; -2 ]} ]>
       (<[ 0%nat := Py.OClause {[ 1; 2 ]} ]> ∅)).

(** The heap that [Py.mk [[2]; [-2; 3]; [2; 4]; [5; -3]]] builds from the
    empty one: the four clauses at 0 to 3, the formula at 4. *)
Definition ex_heap_units : gmap nat Py.obj :=
  <[ 4%nat := Py.OCNF {[ {[ 2 ]} := 0%nat; {[ -2; 3 ]} := 1%nat;
                         {[ 2; 4 ]} := 2%nat; {[ 5; -3 ]} := 3%nat ]} 6 4 ]>
    (<[ 3%nat := Py.OClause {[ 5; -3 ]} ]>
       (<[ 2%nat := Py.OClause {[ 2; 4 ]} ]>
          (<[ 1%nat := Py.OClause {[ -2; 3 ]} ]>
             (<[ 0%nat := Py.OClause {[ 2 ]} ]> ∅)))).

(** A line of a file, with its line break. *)
Definition ln (s : string) : string := s +:+ String "010"%char "".

(** A formula with a unit clause, and the formula of
    [test_05_pure_literal_elimination_sat]. *)
Definition ex_units : CNF.t := mk [[2]; [-2; 3]; [2; 4]; [5; -3]].

Definition ex_pure : CNF.t := mk [[1; 2]; [-2; 3]; [1; 3]].


(** The lines that [parse_dimacs] passes over: blank lines and lines that
    start with [c]. *)
Definition skipped (raw : string) : bool :=
  match Dimacs.rstrip (list_ascii_of_string raw) with
  | [] => true
  | c :: _ => Ascii.eqb c "c"
  end.



(** How a line of integers reads: not at all, or as some literals, with or
    without the terminator after them. *)
Inductive line_kind :=
| Skip
| Content (zs : list Z) (fin : bool).







(** The characters of a numeral. *)
Definition numeral_char (c : ascii) : Prop :=
  c = "-"%char ∨ Dimacs.is_digit c = true.

(** ** Decidable equality of results, to compare them by evaluation *)

#[global] Instance cnf_eq_dec : EqDecision CNF.t.
Proof. solve_decision. Defined.

#[global] Instance flow_eq_dec : EqDecision CNF.flow.
Proof. solve_decision. Defined.

#[global] Instance message_eq_dec : EqDecision Dimacs.message.
Proof. solve_decision. Defined.

#[global] Instance exn_eq_dec : EqDecision Dimacs.exn.
Proof. solve_decision. Defined.

#[global] Instance obj_eq_dec : EqDecision Py.obj.
Proof. solve_decision. Defined.

(** ** Tests of the repository, run on the model *)

Example test_01_trivial_sat : decide_with [] [] = Some true.
Proof. by_eval. Qed.

Example test_02_trivial_unsat : decide_with [] [[]] = Some false.
Proof. by_eval. Qed.

Example test_03_unit_propagation_sat :
  decide_with [] [[1]; [-1; 2]] = Some true.
Proof. by_eval. Qed.

Example test_04_unit_propagation_unsat :
  decide_with [] [[1]; [-1]] = Some false.
Proof. by_eval. Qed.

Example test_05_pure_literal_elimination_sat :
  decide_with [] [[1; 2]; [-2; 3]; [1; 3]] = Some true.
Proof. by_eval. Qed.

Example test_06_simple_splitting_sat :
  decide_with [3%nat; 1%nat] [[1; 2]; [-1; -2]] = Some true.
Proof. by_eval. Qed.

Example test_07_unsat_requiring_splitting :
  decide_with [2%nat] [[1; 2]; [1; -2]; [-1; 2]; [-1; -2]] = Some false.
Proof. by_eval. Qed.

Example test_08_complex_php_3_to_2_unsat :
  decide_with [5%nat; 0%nat; 7%nat]
    [[1; 2]; [3; 4]; [5; 6]; [-1; -3]; [-1; -5]; [-3; -5];
     [-2; -4]; [-2; -6]; [-4; -6]] = Some false.
Proof. by_eval. Qed.

Example test_09_moderate_random_3cnf_sat :
  decide_with [4%nat; 9%nat]
    [[-1; -2; -3]; [-2; 3; 7]; [-1; 4; 5]; [1; 2; -6]; [3; 4; -7];
     [-4; 5; 6]; [1; -5; -6]; [-3; -4; 7]; [-1; 2; 5]; [1; -3; 6];
     [-5; 6; 7]; [-2; -5; -7]; [-1; 3; -4]; [2; 4; -5]; [1; -7]]
    = Some true.
Proof. by_eval. Qed.

(** * Properties of the model *)

(** ** The oracle *)

Lemma pick_None {A} (l : list A) o x :
  pick l o = (None, x) → l = [].
Proof.
  unfold pick. destruct (draw o) as [r o']. intros [= Hl _].
  destruct l as [|a l]; [done|].
  apply lookup_ge_None in Hl.
  pose proof (Nat.mod_upper_bound r (length (a :: l))) as Hb.
  simpl in *. lia.
Qed.

Lemma pick_Some {A} (l : list A) o x o' :
  pick l o = (Some x, o') → x ∈ l.
Proof.
  unfold pick. destruct (draw o) as [r o'']. intros [= Hl _].
  by eapply list_elem_of_lookup_2.
Qed.

Lemma pick_nil {A} o : ∃ o', pick (@nil A) o = (None, o').
Proof. unfold pick. destruct (draw o) as [r o']. exists o'. by destruct r. Qed.

(** Every element of the list is chosen by some tape. *)
Lemma pick_any {A} (l : list A) x o :
  x ∈ l → ∃ r, pick l (r :: o) = (Some x, o).
Proof.
  intros [i Hi]%list_elem_of_lookup. exists i. unfold pick. simpl.
  pose proof (lookup_lt_Some _ _ _ Hi).
  rewrite Nat.mod_small by done. by rewrite Hi.
Qed.

(** ** Clauses and clause sets *)

Lemma dupe_id (c : gset Z) : Clause.dupe c = c.
Proof. unfold Clause.dupe, Clause.init. apply list_to_set_elements_L. Qed.

Lemma init_singleton (l : Z) : Clause.init [l] = {[ l ]}.
Proof. unfold Clause.init. simpl. set_solver. Qed.

Lemma clause_eq_spec (a b : gset Z) : Clause.eq a b = true ↔ a = b.
Proof. unfold Clause.eq. apply bool_decide_eq_true. Qed.

Lemma elem_of_foldl_union (l : list (gset Z)) (acc : gset Z) x :
  x ∈ foldl (∪) acc l ↔ x ∈ acc ∨ ∃ c, c ∈ l ∧ x ∈ c.
Proof.
  revert acc. induction l as [|c l IH]; intros acc; simpl.
  - split; [by left|]. intros [?|(c & Hc & _)]; [done|]. by inversion Hc.
  - rewrite IH. split.
    + intros [[?|?]%elem_of_union|(c' & ? & ?)]; eauto.
      * right. exists c. split; [left|done].
      * right. exists c'. split; [by right|done].
    + intros [?|(c' & Hc' & ?)]; [left; set_solver|].
      apply elem_of_cons in Hc' as [->|?]; [left; set_solver|].
      right. by exists c'.
Qed.

Lemma elem_of_literals_of (cs : gset (gset Z)) l :
  l ∈ CNF.literals_of cs ↔ ∃ c, c ∈ cs ∧ l ∈ c.
Proof.
  unfold CNF.literals_of. rewrite elem_of_foldl_union. split.
  - intros [?|(c & Hc & ?)]; [set_solver|].
    exists c. by rewrite <- elem_of_elements.
  - intros (c & Hc & ?). right. exists c. by rewrite elem_of_elements.
Qed.

Lemma clauses_of_list (cl : list (gset Z)) :
  CNF.clauses (CNF.of_list cl) = list_to_set cl.
Proof. reflexivity. Qed.

Lemma clauses_add_literal (F : CNF.t) (l : Z) :
  CNF.clauses (CNF.add_literal F l) = CNF.clauses F ∪ {[ {[ l ]} ]}.
Proof.
  unfold CNF.add_literal. rewrite clauses_of_list.
  rewrite list_to_set_app_L, init_singleton.
  f_equal; [|set_solver].
  apply set_eq. intros c. rewrite elem_of_list_to_set, list_elem_of_fmap.
  split.
  - intros (c' & -> & Hc'). rewrite dupe_id. by apply elem_of_elements.
  - intros Hc. exists c. rewrite dupe_id. by rewrite elem_of_elements.
Qed.

Lemma is_sat_spec (F : CNF.t) : CNF.is_sat F = true ↔ CNF.clauses F = ∅.
Proof.
  unfold CNF.is_sat. rewrite bool_decide_eq_true, size_empty_iff.
  by rewrite leibniz_equiv_iff.
Qed.

Lemma is_unsat_spec (F : CNF.t) : CNF.is_unsat F = true ↔ ∅ ∈ CNF.clauses F.
Proof.
  unfold CNF.is_unsat, Clause.len. rewrite existsb_exists. split.
  - intros (c & Hc & Hs).
    apply bool_decide_eq_true, size_empty_iff, leibniz_equiv_iff in Hs.
    subst c. apply elem_of_elements. by apply list_elem_of_In.
  - intros H. exists ∅. split; [|by apply bool_decide_eq_true].
    by apply list_elem_of_In, elem_of_elements.
Qed.

Lemma is_unsat_false (F : CNF.t) : CNF.is_unsat F = false ↔ ∅ ∉ CNF.clauses F.
Proof.
  rewrite <- is_unsat_spec. destruct (CNF.is_unsat F); naive_solver.
Qed.

Lemma set_clauses_id (F : CNF.t) : CNF.set_clauses F (CNF.clauses F) = F.
Proof. by destruct F. Qed.

(** ** Unit propagation, as a set comprehension *)

Lemma elem_of_propagate u cs (c' : gset Z) :
  c' ∈ propagate u cs ↔ ∃ c, c ∈ cs ∧ u ∉ c ∧ c' = c ∖ {[ - u ]}.
Proof.
  unfold propagate. rewrite elem_of_map. split.
  - intros (c & -> & [? ?]%elem_of_filter). by exists c.
  - intros (c & ? & ? & ->). exists c. split; [done|]. by apply elem_of_filter.
Qed.

Lemma unit_body_spec u (acc : gset (gset Z)) (c : gset Z) :
  CNF.unit_body {[ u ]} u acc c =
    if decide (u ∈ c) then acc else {[ (c ∖ {[ - u ]}) ]} ∪ acc.
Proof.
  unfold CNF.unit_body, Clause.eq, Clause.remove. rewrite dupe_id.
  destruct (decide (u ∈ c)) as [Hu|Hu].
  - rewrite (bool_decide_eq_true_2 (u ∈ c)) by done. by case_bool_decide.
  - rewrite (bool_decide_eq_false_2 (u ∈ c)) by done.
    rewrite (bool_decide_eq_false_2 (c = {[ u ]})) by set_solver.
    case_bool_decide as Hn; [done|].
    f_equal. f_equal. set_solver.
Qed.

Lemma foldl_unit_body u (l : list (gset Z)) (acc : gset (gset Z)) c' :
  c' ∈ foldl (CNF.unit_body {[ u ]} u) acc l ↔
    c' ∈ acc ∨ ∃ c, c ∈ l ∧ u ∉ c ∧ c' = c ∖ {[ - u ]}.
Proof.
  revert acc. induction l as [|c l IH]; intros acc; simpl.
  - split; [by left|]. intros [?|(c & Hc & _)]; [done|]. by inversion Hc.
  - rewrite IH, unit_body_spec. destruct (decide (u ∈ c)) as [Hu|Hu].
    + split.
      * intros [?|(c0 & ? & ? & ?)]; [by left|].
        right. exists c0. split; [by right|done].
      * intros [?|(c0 & [->|?]%elem_of_cons & ? & ?)]; [by left|done|].
        right. by exists c0.
    + split.
      * intros [[->%elem_of_singleton|?]%elem_of_union|(c0 & ? & ? & ?)].
        -- right. exists c. split; [left|done].
        -- by left.
        -- right. exists c0. split; [by right|done].
      * intros [?|(c0 & [->|?]%elem_of_cons & ? & ->)].
        -- left. set_solver.
        -- left. set_solver.
        -- right. by exists c0.
Qed.

Lemma foldl_unit_body_propagate u (cs : gset (gset Z)) :
  foldl (CNF.unit_body {[ u ]} u) ∅ (elements cs) = propagate u cs.
Proof.
  apply set_eq. intros c'. rewrite foldl_unit_body, elem_of_propagate.
  setoid_rewrite elem_of_elements. set_solver.
Qed.

Lemma unit_clauses_elem (F : CNF.t) (c : gset Z) :
  c ∈ filter (λ c : gset Z, Clause.len c = 1%nat) (elements (CNF.clauses F)) ↔
  c ∈ CNF.clauses F ∧ size c = 1%nat.
Proof.
  rewrite list_elem_of_filter, elem_of_elements. unfold Clause.len. tauto.
Qed.

Lemma size_1_singleton (c : gset Z) : size c = 1%nat → ∃ u, c = {[ u ]}.
Proof.
  intros [u Hu]%size_1_elem_of. exists u. by apply leibniz_equiv.
Qed.

(** [apply_unit] on a formula without unit clause. *)
Lemma apply_unit_none o (F : CNF.t) :
  ¬ has_unit F → CNF.apply_unit o F = (false, F, o).
Proof.
  intros Hno. unfold CNF.apply_unit.
  destruct (pick _ o) as [[c|] o'] eqn:Hp; [|done].
  apply pick_Some, unit_clauses_elem in Hp. destruct Hno. by exists c.
Qed.

(** [apply_unit] on a formula with a unit clause. *)
Lemma apply_unit_found o (F : CNF.t) :
  has_unit F →
  ∃ u o', {[ u ]} ∈ CNF.clauses F ∧
    CNF.apply_unit o F =
      (true, CNF.set_clauses F (propagate u (CNF.clauses F)), o').
Proof.
  intros (c & Hc & Hs). unfold CNF.apply_unit.
  destruct (pick _ o) as [[c0|] o'] eqn:Hp.
  - apply pick_Some, unit_clauses_elem in Hp as [Hc0 Hs0].
    apply size_1_singleton in Hs0 as [u ->]. exists u, o'.
    split; [done|]. rewrite elements_singleton.
    by rewrite foldl_unit_body_propagate.
  - apply pick_None in Hp.
    assert (c ∈ filter (λ c : gset Z, Clause.len c = 1%nat)
                  (elements (CNF.clauses F))) as Hin
      by by apply unit_clauses_elem.
    rewrite Hp in Hin. by inversion Hin.
Qed.

#[global] Instance has_unit_dec (F : CNF.t) : Decision (has_unit F).
Proof.
  destruct (decide (Exists (λ c : gset Z, size c = 1%nat)
                      (elements (CNF.clauses F)))) as [H|H].
  - left. apply Exists_exists in H as (c & Hc & ?). exists c.
    by rewrite <- elem_of_elements.
  - right. intros (c & Hc & ?). apply H, Exists_exists. exists c.
    by rewrite elem_of_elements.
Defined.

Lemma apply_unit_inv o (F F' : CNF.t) b o' :
  CNF.apply_unit o F = (b, F', o') →
  (b = false ∧ F' = F ∧ o' = o ∧ ¬ has_unit F) ∨
  (b = true ∧ ∃ u, {[ u ]} ∈ CNF.clauses F ∧
     F' = CNF.set_clauses F (propagate u (CNF.clauses F))).
Proof.
  intros H. destruct (has_unit_dec F) as [Hu|Hu].
  - destruct (apply_unit_found o F Hu) as (u & o'' & ? & Heq).
    rewrite Heq in H. injection H as <- <- <-. right. split; [done|].
    by exists u.
  - rewrite apply_unit_none in H by done. injection H as <- <- <-. by left.
Qed.

(** ** Pure-literal elimination, as a set comprehension *)

Lemma elem_of_pure_literals cs l :
  l ∈ pure_literals cs ↔ l ∈ CNF.literals_of cs ∧ - l ∉ CNF.literals_of cs.
Proof. unfold pure_literals. rewrite elem_of_filter. tauto. Qed.

Lemma elem_of_purge P cs (c : gset Z) :
  c ∈ purge P cs ↔ c ∈ cs ∧ ∀ l, l ∈ c → l ∉ P.
Proof. unfold purge. rewrite elem_of_filter. set_solver. Qed.

Lemma purge_subseteq P cs : purge P cs ⊆ cs.
Proof. intros c [? _]%elem_of_purge. done. Qed.

Lemma foldl_pure_body P (l : list (gset Z)) keep n :
  foldl (CNF.pure_body P) (keep, n) l =
    (list_to_set (filter (λ c : gset Z, c ∩ P = ∅) l) ∪ keep,
     (n + length (filter (λ c : gset Z, c ∩ P ≠ ∅) l))%nat).
Proof.
  revert keep n. induction l as [|c l IH]; intros keep n; simpl.
  - f_equal; [set_solver|lia].
  - unfold CNF.pure_body at 2. simpl. case_bool_decide as Hc.
    + rewrite IH, filter_cons_True, (filter_cons_False (λ c, c ∩ P ≠ ∅))
        by (done || by intros []).
      f_equal. set_solver.
    + rewrite IH, filter_cons_False, (filter_cons_True (λ c, c ∩ P ≠ ∅))
        by done.
      f_equal. simpl. lia.
Qed.

Lemma apply_pure_unfold (F : CNF.t) :
  CNF.apply_pure F =
    if decide (pure_literals (CNF.clauses F) = ∅) then (false, F)
    else (bool_decide (purge (pure_literals (CNF.clauses F)) (CNF.clauses F)
                         ≠ CNF.clauses F),
          CNF.set_clauses F
            (purge (pure_literals (CNF.clauses F)) (CNF.clauses F))).
Proof.
  unfold CNF.apply_pure, CNF.get_literals.
  fold (pure_literals (CNF.clauses F)).
  set (P := pure_literals (CNF.clauses F)).
  destruct (decide (P = ∅)) as [HP|HP].
  - by rewrite bool_decide_eq_true_2.
  - rewrite bool_decide_eq_false_2 by done.
    rewrite foldl_pure_body.
    assert (list_to_set (filter (λ c : gset Z, c ∩ P = ∅)
                           (elements (CNF.clauses F))) ∪ ∅
            = purge P (CNF.clauses F)) as ->.
    { apply set_eq. intros c. rewrite elem_of_union, elem_of_list_to_set,
        list_elem_of_filter, elem_of_elements. unfold purge.
      rewrite elem_of_filter. set_solver. }
    f_equal. simpl.
    apply bool_decide_ext. split.
    + intros Hlen Heq.
      destruct (filter (λ c : gset Z, c ∩ P ≠ ∅) (elements (CNF.clauses F)))
        as [|c l] eqn:Hf; [simpl in Hlen; lia|].
      assert (c ∈ filter (λ c : gset Z, c ∩ P ≠ ∅)
                (elements (CNF.clauses F))) as Hin by (rewrite Hf; left).
      apply list_elem_of_filter in Hin as [Hne Hin].
      apply elem_of_elements in Hin. rewrite <- Heq in Hin.
      unfold purge in Hin. apply elem_of_filter in Hin as [? _]. done.
    + intros Hne.
      destruct (filter (λ c : gset Z, c ∩ P ≠ ∅) (elements (CNF.clauses F)))
        as [|c l] eqn:Hf; [|simpl; lia].
      destruct Hne. apply set_eq. intros c. split; [apply purge_subseteq|].
      intros Hc. unfold purge. apply elem_of_filter. split; [|done].
      destruct (decide (c ∩ P = ∅)) as [|Hn]; [done|].
      assert (c ∈ filter (λ c : gset Z, c ∩ P ≠ ∅)
                (elements (CNF.clauses F))) as Hin.
      { apply list_elem_of_filter. by rewrite elem_of_elements. }
      rewrite Hf in Hin. by inversion Hin.
Qed.

(** Some clause holds a pure literal as soon as there is one. *)
Lemma purge_neq cs :
  pure_literals cs ≠ ∅ → purge (pure_literals cs) cs ≠ cs.
Proof.
  intros Hne Heq.
  apply set_choose_L in Hne as [l Hl].
  pose proof Hl as [(c & Hc & Hlc)%elem_of_literals_of _]%elem_of_pure_literals.
  rewrite <- Heq in Hc. apply elem_of_purge in Hc as [_ Hc]. by apply (Hc l).
Qed.

Lemma apply_pure_true (F : CNF.t) :
  pure_literals (CNF.clauses F) ≠ ∅ →
  CNF.apply_pure F =
    (true, CNF.set_clauses F
             (purge (pure_literals (CNF.clauses F)) (CNF.clauses F))).
Proof.
  intros H. rewrite apply_pure_unfold. rewrite decide_False by done.
  by rewrite bool_decide_eq_true_2 by by apply purge_neq.
Qed.

Lemma apply_pure_false (F : CNF.t) :
  pure_literals (CNF.clauses F) = ∅ → CNF.apply_pure F = (false, F).
Proof. intros H. rewrite apply_pure_unfold. by rewrite decide_True. Qed.

Lemma purge_empty cs : purge ∅ cs = cs.
Proof. apply set_eq. intros c. rewrite elem_of_purge. set_solver. Qed.

(** ** Satisfiability *)

#[global] Instance nonzero_dec cs : Decision (nonzero cs).
Proof. unfold nonzero. apply _. Defined.

Lemma lit_true_neg a l : l ≠ 0 → lit_true a (- l) = negb (lit_true a l).
Proof.
  intros Hl. unfold lit_true. rewrite Z.abs_opp.
  destruct (0 <? l) eqn:H1, (0 <? - l) eqn:H2; try lia; [done|].
  by rewrite negb_involutive.
Qed.

Lemma lit_true_force_same u a : lit_true (force u a) u = true.
Proof.
  unfold lit_true, force. rewrite bool_decide_eq_true_2 by done.
  by destruct (0 <? u).
Qed.

Lemma lit_true_force_other u a l :
  l ≠ u → l ≠ - u → lit_true (force u a) l = lit_true a l.
Proof.
  intros H1 H2. unfold lit_true, force.
  rewrite bool_decide_eq_false_2 by lia. done.
Qed.

Lemma satisfies_mono a (cs cs' : gset (gset Z)) :
  cs' ⊆ cs → satisfies a cs → satisfies a cs'.
Proof. intros Hsub H c Hc. apply H. by apply Hsub. Qed.

Lemma satisfiable_mono (cs cs' : gset (gset Z)) :
  cs' ⊆ cs → satisfiable cs → satisfiable cs'.
Proof. intros Hsub [a Ha]. exists a. by eapply satisfies_mono. Qed.

Lemma satisfiable_empty : satisfiable ∅.
Proof. exists (λ _, true). intros c Hc. set_solver. Qed.

Lemma empty_clause_unsat (cs : gset (gset Z)) : ∅ ∈ cs → ¬ satisfiable cs.
Proof. intros H [a Ha]. destruct (Ha ∅ H) as (l & Hl & _). set_solver. Qed.

Lemma satisfies_unit a u (cs : gset (gset Z)) :
  {[ u ]} ∈ cs → satisfies a cs → lit_true a u = true.
Proof.
  intros Hu Ha. destruct (Ha _ Hu) as (l & Hl & Ht).
  apply elem_of_singleton in Hl. by subst.
Qed.

(** Unit propagation keeps a formula exactly as satisfiable as it was. *)
Lemma propagate_equisat u (cs : gset (gset Z)) :
  {[ u ]} ∈ cs → satisfiable (propagate u cs) ↔ satisfiable cs.
Proof.
  intros Hu. split; intros [a Ha].
  - exists (force u a). intros c Hc.
    destruct (decide (u ∈ c)) as [Huc|Huc].
    + exists u. split; [done|]. apply lit_true_force_same.
    + destruct (Ha (c ∖ {[ - u ]})) as (l & Hl & Ht).
      { apply elem_of_propagate. by exists c. }
      exists l. split; [set_solver|].
      rewrite lit_true_force_other; [done| |]; set_solver.
  - exists a. intros c' (c & Hc & Huc & ->)%elem_of_propagate.
    destruct (Ha c Hc) as (l & Hl & Ht). exists l. split; [|done].
    apply elem_of_difference. split; [done|].
    intros ->%elem_of_singleton.
    destruct (decide (u = 0)) as [->|Hnz]; [done|].
    rewrite lit_true_neg in Ht by done.
    rewrite (satisfies_unit a u cs) in Ht by done. done.
Qed.

(** Pure-literal elimination keeps a formula exactly as satisfiable as it
    was. *)
Lemma purge_equisat (cs : gset (gset Z)) :
  satisfiable (purge (pure_literals cs) cs) ↔ satisfiable cs.
Proof.
  split; [|apply satisfiable_mono, purge_subseteq].
  set (P := pure_literals cs).
  assert (HP : ∀ l, l ∈ P → l ∈ CNF.literals_of cs ∧ - l ∉ CNF.literals_of cs)
    by (intros l; apply elem_of_pure_literals).
  intros [a Ha]. exists (force_all P a). intros c Hc.
  destruct (decide (∃ l, l ∈ c ∧ l ∈ P)) as [(l & Hlc & HlP)|Hno].
  - exists l. split; [done|]. destruct (HP l HlP) as [Hin Hnin].
    assert (l ≠ 0) by (intros ->; by apply Hnin).
    unfold lit_true, force_all. destruct (0 <? l) eqn:Hs.
    + rewrite Z.abs_eq by lia. by rewrite bool_decide_eq_true_2.
    + rewrite Z.abs_neq by lia.
      rewrite bool_decide_eq_false_2.
      * rewrite Z.opp_involutive. by rewrite bool_decide_eq_true_2.
      * intros ?%HP. tauto.
  - destruct (Ha c) as (l & Hlc & Ht).
    { apply elem_of_purge. split; [done|]. intros l ? ?. apply Hno. eauto. }
    exists l. split; [done|]. rewrite <- Ht.
    assert (l ∈ CNF.literals_of cs) by (apply elem_of_literals_of; eauto).
    assert (l ∉ P) by (intros ?; apply Hno; eauto).
    assert (- l ∉ P).
    { intros [_ Hn]%HP. by rewrite Z.opp_involutive in Hn. }
    unfold lit_true, force_all.
    destruct (Z.abs_spec l) as [[_ ->]|[_ ->]];
      rewrite ?Z.opp_involutive;
      by rewrite !bool_decide_eq_false_2 by done.
Qed.

(** Splitting: a formula is satisfiable exactly if it is so together with
    [l] or together with [-l]. *)
Lemma split_equisat l (cs : gset (gset Z)) :
  satisfiable cs ↔
  satisfiable (cs ∪ {[ {[ l ]} ]}) ∨ satisfiable (cs ∪ {[ {[ - l ]} ]}).
Proof.
  split.
  - intros [a Ha].
    assert (Hadd : ∀ a' k, satisfies a' cs → lit_true a' k = true →
                    satisfiable (cs ∪ {[ {[ k ]} ]})).
    { intros a' k Ha' Hk. exists a'.
      intros c [?| ->%elem_of_singleton]%elem_of_union; [by apply Ha'|].
      exists k. split; [set_solver|done]. }
    destruct (decide (l = 0)) as [->|Hnz].
    + left. apply (Hadd (force 0 a)); [|apply lit_true_force_same].
      intros c Hc. destruct (Ha c Hc) as (k & Hk & Ht). exists k.
      split; [done|]. destruct (decide (k = 0)) as [->|?].
      * apply lit_true_force_same.
      * rewrite lit_true_force_other; [done|lia|lia].
    + destruct (lit_true a l) eqn:Hl.
      * left. by apply (Hadd a).
      * right. apply (Hadd a); [done|]. by rewrite lit_true_neg, Hl.
  - intros [H|H]; revert H; apply satisfiable_mono; set_solver.
Qed.

(** ** The variables of a formula: the measure of the search *)

Lemma variables_vars (F : CNF.t) : CNF.variables F = vars (CNF.clauses F).
Proof. reflexivity. Qed.

Lemma elem_of_vars cs v :
  v ∈ vars cs ↔ ∃ (c : gset Z) l, c ∈ cs ∧ l ∈ c ∧ v = Z.abs l.
Proof.
  unfold vars. rewrite elem_of_map. setoid_rewrite elem_of_literals_of.
  naive_solver.
Qed.

Lemma vars_mono (cs cs' : gset (gset Z)) : cs' ⊆ cs → vars cs' ⊆ vars cs.
Proof.
  intros Hsub v (c & l & ? & ? & ->)%elem_of_vars.
  apply elem_of_vars. exists c, l. auto.
Qed.

Lemma vars_propagate_subseteq u cs :
  vars (propagate u cs) ⊆ vars cs ∖ {[ Z.abs u ]}.
Proof.
  intros v (c' & l & (c & Hc & Hu & ->)%elem_of_propagate & Hl & ->)%elem_of_vars.
  apply elem_of_difference in Hl as [Hl Hne].
  apply elem_of_difference. split.
  - apply elem_of_vars. by exists c, l.
  - intros Habs%elem_of_singleton.
    assert (l = u ∨ l = - u) as [->| ->] by lia; set_solver.
Qed.

Lemma vars_unit u (cs : gset (gset Z)) : {[ u ]} ∈ cs → Z.abs u ∈ vars cs.
Proof. intros H. apply elem_of_vars. exists {[ u ]}, u. set_solver. Qed.

Lemma vars_propagate_lt u (cs : gset (gset Z)) :
  {[ u ]} ∈ cs → (size (vars (propagate u cs)) < size (vars cs))%nat.
Proof.
  intros Hu. apply subset_size.
  pose proof (vars_propagate_subseteq u cs).
  pose proof (vars_unit u cs Hu). set_solver.
Qed.

Lemma vars_purge_lt (cs : gset (gset Z)) :
  pure_literals cs ≠ ∅ →
  (size (vars (purge (pure_literals cs) cs)) < size (vars cs))%nat.
Proof.
  intros [l Hl]%set_choose_L. apply subset_size.
  pose proof Hl as [Hin Hnin]%elem_of_pure_literals.
  split; [apply vars_mono, purge_subseteq|].
  intros Hsub. assert (Z.abs l ∈ vars cs) as Hv%Hsub.
  { apply elem_of_vars. apply elem_of_literals_of in Hin as (c & ? & ?).
    by exists c, l. }
  apply elem_of_vars in Hv as (c & k & [Hc Hno]%elem_of_purge & Hk & Habs).
  assert (k = l ∨ k = - l) as [->| ->] by lia.
  - by apply (Hno l).
  - apply Hnin, elem_of_literals_of. by exists c.
Qed.

Lemma vars_add k (cs : gset (gset Z)) :
  Z.abs k ∈ vars cs → vars (cs ∪ {[ {[ k ]} ]}) = vars cs.
Proof.
  intros Hk. apply set_eq. intros v. split.
  - intros (c & l & [?| ->%elem_of_singleton]%elem_of_union & Hl & ->)%elem_of_vars.
    + apply elem_of_vars. by exists c, l.
    + apply elem_of_singleton in Hl. by subst.
  - apply vars_mono. set_solver.
Qed.

Lemma no_unit_subseteq (F F' : CNF.t) :
  CNF.clauses F' ⊆ CNF.clauses F → ¬ has_unit F → ¬ has_unit F'.
Proof. intros Hsub Hno (c & Hc & ?). apply Hno. exists c. auto. Qed.

(** ** The two loops of [dpll] *)

Lemma unit_loop_sound n : ∀ o (F : CNF.t) r,
  CNF.unit_loop n o F = Some r → unit_loop_post F r.
Proof.
  induction n as [|n IH]; intros o F r Hr; [done|]. simpl in Hr.
  destruct (CNF.apply_unit o F) as [[b F'] o'] eqn:Hau.
  apply apply_unit_inv in Hau
    as [(-> & -> & -> & Hno)|(-> & u & Hu & ->)].
  - injection Hr as <-. simpl. repeat split; auto. tauto.
  - pose proof (vars_propagate_lt u _ Hu) as Hlt.
    pose proof (propagate_equisat u _ Hu) as Heq.
    set (F' := CNF.set_clauses F (propagate u (CNF.clauses F))) in *.
    destruct (CNF.is_unsat F') eqn:Hemp.
    + injection Hr as <-. simpl. split; [done|].
      apply is_unsat_spec, empty_clause_unsat in Hemp. simpl in Hemp. tauto.
    + apply IH in Hr. destruct r as [b o1|F1 o1]; simpl in *.
      * destruct Hr as [-> Hr]. split; [done|]. tauto.
      * destruct Hr as (Hnu & Hs & Hsub & _).
        rewrite !variables_vars in *. simpl in *.
        pose proof (vars_propagate_subseteq u (CNF.clauses F)).
        assert (size (vars (CNF.clauses F1))
                  ≤ size (vars (propagate u (CNF.clauses F))))%nat
          by by apply subseteq_size.
        repeat split; [done|tauto|tauto|set_solver|lia].
Qed.

(** Every round of the loop removes a variable, so as many rounds as there
    are variables, and one more, are enough. *)
Lemma unit_loop_total n : ∀ o (F : CNF.t),
  (size (CNF.variables F) < n)%nat → is_Some (CNF.unit_loop n o F).
Proof.
  induction n as [|n IH]; intros o F Hn; [lia|]. simpl.
  destruct (CNF.apply_unit o F) as [[b F'] o'] eqn:Hau.
  apply apply_unit_inv in Hau
    as [(-> & -> & -> & Hno)|(-> & u & Hu & ->)]; [done|].
  destruct (CNF.is_unsat _); [done|]. apply IH.
  pose proof (vars_propagate_lt u _ Hu).
  rewrite !variables_vars in *. simpl. lia.
Qed.

Lemma unit_loop_spec n o (F : CNF.t) :
  (size (CNF.variables F) < n)%nat →
  ∃ r, CNF.unit_loop n o F = Some r ∧ unit_loop_post F r.
Proof.
  intros [r Hr]%(unit_loop_total n o). exists r. split; [done|].
  by eapply unit_loop_sound.
Qed.

Lemma pure_loop_sound n : ∀ (F F2 : CNF.t),
  CNF.pure_loop n F = Some F2 →
  CNF.clauses F2 ⊆ CNF.clauses F ∧
  pure_literals (CNF.clauses F2) = ∅ ∧
  (satisfiable (CNF.clauses F2) ↔ satisfiable (CNF.clauses F)).
Proof.
  induction n as [|n IH]; intros F F2 H2; [done|]. simpl in H2.
  destruct (decide (pure_literals (CNF.clauses F) = ∅)) as [HP|HP].
  - rewrite apply_pure_false in H2 by done. injection H2 as <-.
    by repeat split.
  - rewrite apply_pure_true in H2 by done.
    pose proof (purge_equisat (CNF.clauses F)).
    pose proof (purge_subseteq (pure_literals (CNF.clauses F)) (CNF.clauses F)).
    apply IH in H2 as (Hsub & Hp & Hs). simpl in *.
    split; [set_solver|]. split; [done|]. tauto.
Qed.

(** Every round of the loop removes a variable as well. *)
Lemma pure_loop_total n : ∀ (F : CNF.t),
  (size (CNF.variables F) < n)%nat → is_Some (CNF.pure_loop n F).
Proof.
  induction n as [|n IH]; intros F Hn; [lia|]. simpl.
  destruct (decide (pure_literals (CNF.clauses F) = ∅)) as [HP|HP].
  - by rewrite apply_pure_false by done.
  - rewrite apply_pure_true by done. apply IH.
    pose proof (vars_purge_lt _ HP).
    rewrite !variables_vars in *. simpl. lia.
Qed.

Lemma pure_loop_spec n (F : CNF.t) :
  (size (CNF.variables F) < n)%nat →
  ∃ F2, CNF.pure_loop n F = Some F2 ∧
    CNF.clauses F2 ⊆ CNF.clauses F ∧
    pure_literals (CNF.clauses F2) = ∅ ∧
    (satisfiable (CNF.clauses F2) ↔ satisfiable (CNF.clauses F)).
Proof.
  intros [F2 H2]%(pure_loop_total n). exists F2. split; [done|].
  by eapply pure_loop_sound.
Qed.

(** ** The search *)

Lemma get_literals_nonempty (F : CNF.t) :
  CNF.is_sat F = false → CNF.is_unsat F = false →
  ∃ l, l ∈ CNF.get_literals F.
Proof.
  intros Hs Hu.
  assert (CNF.clauses F ≠ ∅) as [c Hc]%set_choose_L.
  { intros H%is_sat_spec. congruence. }
  apply is_unsat_false in Hu.
  assert (c ≠ ∅) as [l Hl]%set_choose_L by (intros ->; done).
  exists l. apply elem_of_literals_of. by exists c.
Qed.

Lemma has_unit_add (F : CNF.t) k : has_unit (CNF.add_literal F k).
Proof.
  exists {[ k ]}. rewrite clauses_add_literal, size_singleton. set_solver.
Qed.

Lemma variables_add_literal (F : CNF.t) l k :
  l ∈ CNF.get_literals F → k = l ∨ k = - l →
  CNF.variables (CNF.add_literal F k) = CNF.variables F.
Proof.
  intros Hl Hk. rewrite !variables_vars, clauses_add_literal.
  apply vars_add. unfold vars. apply elem_of_map. exists l.
  split; [|done]. destruct Hk as [->| ->]; [done|]. apply Z.abs_opp.
Qed.

(** With enough fuel [dpll] returns, and it returns [true] exactly on the
    satisfiable formulas. *)
Lemma dpll_fuel_spec n : ∀ o (F : CNF.t),
  (has_unit F → size (CNF.variables F) < n)%nat →
  (¬ has_unit F → size (CNF.variables F) + 1 < n)%nat →
  ∃ b o', CNF.dpll_fuel n o F = Some (b, o') ∧
    (b = true ↔ satisfiable (CNF.clauses F)).
Proof.
  induction n as [|n IH]; intros o F Hn1 Hn2.
  { destruct (has_unit_dec F); [specialize (Hn1 h)|specialize (Hn2 n)]; lia. }
  assert (size (CNF.variables F) < S n)%nat as Hn.
  { destruct (has_unit_dec F) as [h|h];
      [specialize (Hn1 h)|specialize (Hn2 h)]; lia. }
  cbn [CNF.dpll_fuel].
  destruct (unit_loop_spec (S n) o F Hn) as (r & -> & Hr).
  destruct r as [b o1|F1 o1]; simpl in Hr.
  { destruct Hr as [-> Hr]. exists false, o1. split; [done|]. split; [done|].
    intros. by destruct Hr. }
  destruct Hr as (Hnu & Hs1 & Hsub1 & Hlt1).
  apply subseteq_size in Hsub1.
  destruct (pure_loop_spec (S n) F1) as (F2 & -> & Hsub2 & _ & Hs2); [lia|].
  destruct (CNF.is_sat F2) eqn:Hsat.
  { exists true, o1. split; [done|]. split; [|done]. intros _.
    apply Hs1, Hs2. apply is_sat_spec in Hsat. rewrite Hsat.
    apply satisfiable_empty. }
  destruct (CNF.is_unsat F2) eqn:Hunsat.
  { exists false, o1. split; [done|]. split; [done|]. intros Hs.
    apply is_unsat_spec, empty_clause_unsat in Hunsat. tauto. }
  destruct (get_literals_nonempty F2 Hsat Hunsat) as [l0 Hl0].
  unfold CNF.apply_split.
  destruct (pick (elements (CNF.get_literals F2)) o1) as [[l|] o2] eqn:Hp.
  2:{ apply pick_None in Hp. apply elem_of_elements in Hl0.
      rewrite Hp in Hl0. by inversion Hl0. }
  apply pick_Some, elem_of_elements in Hp.
  assert (size (CNF.variables F2) < n)%nat as Hn'.
  { assert (size (CNF.variables F2) ≤ size (CNF.variables F1))%nat.
    { rewrite !variables_vars. by apply subseteq_size, vars_mono. }
    destruct (has_unit_dec F) as [h|h];
      [specialize (Hn1 h); specialize (Hlt1 h)|specialize (Hn2 h)]; lia. }
  assert (Hbr : ∀ k o3, k = l ∨ k = - l →
            ∃ b o', CNF.dpll_fuel n o3 (CNF.add_literal F2 k) = Some (b, o') ∧
              (b = true ↔ satisfiable (CNF.clauses F2 ∪ {[ {[ k ]} ]}))).
  { intros k o3 Hk. rewrite <- clauses_add_literal. apply IH.
    - intros _. by rewrite (variables_add_literal F2 l k).
    - intros []. apply has_unit_add. }
  pose proof (split_equisat l (CNF.clauses F2)) as Hsplit.
  destruct (Hbr l o2) as (b1 & o3 & -> & Hb1); [by left|].
  destruct b1.
  - exists true, o3. split; [done|]. split; [|done]. intros _. tauto.
  - destruct (Hbr (- l) o3) as (b2 & o4 & -> & Hb2); [by right|].
    exists b2, o4. split; [done|]. rewrite Hb2.
    assert (¬ satisfiable (CNF.clauses F2 ∪ {[{[l]}]})).
    { intros ?. by assert (false = true) by tauto. }
    tauto.
Qed.

Lemma dpll_spec o (F : CNF.t) :
  ∃ b o', CNF.dpll o F = Some (b, o') ∧
    (b = true ↔ satisfiable (CNF.clauses F)).
Proof. apply dpll_fuel_spec; lia. Qed.

(** The outcome is a function of the clause set: the oracle, and the two
    counters of the record, have no say in it. *)
Lemma dpll_same_outcome (F G : CNF.t) (o1 o2 : oracle) :
  CNF.clauses F = CNF.clauses G →
  ∃ b o1' o2',
    CNF.dpll o1 F = Some (b, o1') ∧ CNF.dpll o2 G = Some (b, o2').
Proof.
  intros Heq.
  destruct (dpll_spec o1 F) as (b1 & o1' & Hd1 & Hb1).
  destruct (dpll_spec o2 G) as (b2 & o2' & Hd2 & Hb2).
  rewrite Heq in Hb1. exists b1, o1', o2'. split; [done|].
  rewrite Hd2. destruct b1, b2; try done.
  - by assert (false = true) by tauto.
  - by assert (false = true) by tauto.
Qed.

(** ** The heap model refines the value model *)

Lemma valid_set_weaken h h' s : h ⊆ h' → valid_set h s → valid_set h' s.
Proof. intros Hsub Hv k c Hk. eapply lookup_weaken; eauto. Qed.

Lemma points_to_weaken h h' kcs : h ⊆ h' → points_to h kcs → points_to h' kcs.
Proof.
  intros Hsub H. eapply Forall_impl; [exact H|].
  intros kc Hk. simpl in *. eapply lookup_weaken; eauto.
Qed.

Lemma frame_refl f h : frame f h h.
Proof. by intros l x. Qed.

Lemma frame_trans f h1 h2 h3 : frame f h1 h2 → frame f h2 h3 → frame f h1 h3.
Proof. intros H12 H23 l x Hl Hne. eauto. Qed.

Lemma frame_subseteq f h h' : h ⊆ h' → frame f h h'.
Proof. intros Hsub l x Hl _. eapply lookup_weaken; eauto. Qed.

Lemma alloc_spec o h :
  ∃ l, Py.alloc o h = Some (l, <[ l := o ]> h) ∧ h !! l = None ∧
       h ⊆ <[ l := o ]> h.
Proof.
  exists (fresh (dom h)). split; [done|].
  assert (h !! fresh (dom h) = None) as Hf.
  { apply not_elem_of_dom. apply is_fresh. }
  split; [done|]. by apply insert_subseteq.
Qed.

Lemma entries_exist (s : gmap (gset Z) Py.loc) (ks : list (gset Z)) :
  (∀ k, k ∈ ks → k ∈ dom s) →
  ∃ kcs : list (gset Z * Py.loc),
    omap (λ k, s !! k) ks = kcs.*2 ∧ ks = kcs.*1 ∧
    Forall (λ kc, s !! kc.1 = Some kc.2) kcs.
Proof.
  induction ks as [|k ks IH]; intros Hin.
  - by exists [].
  - destruct IH as (kcs & H1 & H2 & H3).
    { intros k' ?. apply Hin. by right. }
    assert (k ∈ dom s) as [c Hc]%elem_of_dom by (apply Hin; left).
    exists ((k, c) :: kcs). split_and!.
    + change (omap (λ k, s !! k) (k :: ks))
        with (match s !! k with
              | Some c => c :: omap (λ k, s !! k) ks
              | None => omap (λ k, s !! k) ks
              end).
      by rewrite Hc, H1.
    + simpl. f_equal. exact H2.
    + by constructor.
Qed.

(** The members of a set, each with the key it is filed under. *)
Lemma members_entries h (s : gmap (gset Z) Py.loc) :
  valid_set h s →
  ∃ kcs : list (gset Z * Py.loc),
    Py.members s = kcs.*2 ∧ elements (dom s) = kcs.*1 ∧
    points_to h kcs ∧ Forall (λ kc, s !! kc.1 = Some kc.2) kcs.
Proof.
  intros Hv.
  destruct (entries_exist s (elements (dom s))) as (kcs & H1 & H2 & H3).
  { intros k. by rewrite elem_of_elements. }
  exists kcs. repeat split; try done.
  eapply Forall_impl; [exact H3|]. intros [k c] Hk. by apply Hv.
Qed.

Lemma get_lits_spec h c k :
  h !! c = Some (Py.OClause k) → Py.get_lits c h = Some (k, h).
Proof. intros H. unfold Py.get_lits. by rewrite H. Qed.

Lemma bind_spec {A B} (m : Py.M A) (k : A → Py.M B) h a h' :
  m h = Some (a, h') → Py.bind m k h = k a h'.
Proof. intros H. unfold Py.bind. by rewrite H. Qed.

Lemma mapM_get_lits h kcs :
  points_to h kcs → Py.mapM Py.get_lits kcs.*2 h = Some (kcs.*1, h).
Proof.
  induction 1 as [|[k c] kcs Hk _ IH]; [done|]. simpl in *.
  rewrite (bind_spec _ _ _ _ _ (get_lits_spec _ _ _ Hk)).
  by rewrite (bind_spec _ _ _ _ _ IH).
Qed.

Lemma Clause_len_spec h c k :
  h !! c = Some (Py.OClause k) → Py.Clause_len c h = Some (size k, h).
Proof.
  intros H. unfold Py.Clause_len.
  by rewrite (bind_spec _ _ _ _ _ (get_lits_spec _ _ _ H)).
Qed.

Lemma mapM_Clause_len h kcs :
  points_to h kcs →
  Py.mapM Py.Clause_len kcs.*2 h = Some (size <$> kcs.*1, h).
Proof.
  induction 1 as [|[k c] kcs Hk _ IH]; [done|]. simpl in *.
  rewrite (bind_spec _ _ _ _ _ (Clause_len_spec _ _ _ Hk)).
  by rewrite (bind_spec _ _ _ _ _ IH).
Qed.

Lemma unit_clauses_of_spec h kcs :
  points_to h kcs →
  Py.unit_clauses_of kcs.*2 h
    = Some ((filter (λ kc, Clause.len kc.1 = 1%nat) kcs).*2, h).
Proof.
  induction 1 as [|[k c] kcs Hk _ IH]; [done|]. simpl in *.
  rewrite (bind_spec _ _ _ _ _ (Clause_len_spec _ _ _ Hk)).
  rewrite (bind_spec _ _ _ _ _ IH). unfold Py.ret.
  rewrite filter_cons. unfold Clause.len at 1. simpl.
  case_bool_decide; [rewrite decide_True by done|rewrite decide_False by done];
    done.
Qed.

Lemma filter_fst_entries (kcs : list (gset Z * Py.loc)) :
  filter (λ c : gset Z, Clause.len c = 1%nat) kcs.*1
    = (filter (λ kc, Clause.len kc.1 = 1%nat) kcs).*1.
Proof.
  induction kcs as [|[k c] kcs IH]; [done|].
  rewrite fmap_cons, !filter_cons. simpl.
  case_decide; [rewrite fmap_cons|]; by rewrite IH.
Qed.

Lemma pick_fmap {A B} (g : A → B) (l : list A) o :
  pick (g <$> l) o = (g <$> (pick l o).1, (pick l o).2).
Proof.
  unfold pick. destruct (draw o) as [r o']. simpl.
  by rewrite length_fmap, list_lookup_fmap.
Qed.

Lemma set_add_spec h (s : gmap (gset Z) Py.loc) c k :
  h !! c = Some (Py.OClause k) → valid_set h s →
  ∃ s', Py.set_add s c h = Some (s', h) ∧ valid_set h s' ∧
        dom s' = {[ k ]} ∪ dom s.
Proof.
  intros Hc Hv. unfold Py.set_add.
  rewrite (bind_spec _ _ _ _ _ (get_lits_spec _ _ _ Hc)). unfold Py.ret.
  destruct (s !! k) as [c'|] eqn:Hk.
  - exists s. split; [done|]. split; [done|].
    assert (k ∈ dom s) by (apply elem_of_dom; eauto). set_solver.
  - exists (<[ k := c ]> s). split; [done|]. split; [|by rewrite dom_insert_L].
    intros k' c' [[<- <-]|[_ ?]]%lookup_insert_Some; [done|]. by apply Hv.
Qed.

Lemma Clause_init_spec h (ls : list Z) :
  ∃ d, Py.Clause_init ls h = Some (d, <[ d := Py.OClause (list_to_set ls) ]> h)
       ∧ h !! d = None ∧ h ⊆ <[ d := Py.OClause (list_to_set ls) ]> h.
Proof. apply alloc_spec. Qed.

Lemma Clause_dupe_spec h c k :
  h !! c = Some (Py.OClause k) →
  ∃ d, Py.Clause_dupe c h = Some (d, <[ d := Py.OClause k ]> h) ∧
       h !! d = None ∧ h ⊆ <[ d := Py.OClause k ]> h.
Proof.
  intros Hc. unfold Py.Clause_dupe.
  rewrite (bind_spec _ _ _ _ _ (get_lits_spec _ _ _ Hc)).
  destruct (Clause_init_spec h (elements k)) as (d & Hd & ?).
  rewrite list_to_set_elements_L in Hd. rewrite list_to_set_elements_L in H.
  by exists d.
Qed.

Lemma Clause_remove_spec h d k l :
  h !! d = Some (Py.OClause k) →
  Py.Clause_remove d l h = Some ((), <[ d := Py.OClause (k ∖ {[ l ]}) ]> h).
Proof.
  intros Hd. unfold Py.Clause_remove.
  rewrite (bind_spec _ _ _ _ _ (get_lits_spec _ _ _ Hd)).
  unfold Py.put_lits. by rewrite Hd.
Qed.

Lemma Clause_eq_spec h c1 c2 k1 k2 :
  h !! c1 = Some (Py.OClause k1) → h !! c2 = Some (Py.OClause k2) →
  Py.Clause_eq c1 c2 h = Some (Clause.eq k1 k2, h).
Proof.
  intros H1 H2. unfold Py.Clause_eq.
  rewrite (bind_spec _ _ _ _ _ (get_lits_spec _ _ _ H1)).
  by rewrite (bind_spec _ _ _ _ _ (get_lits_spec _ _ _ H2)).
Qed.

(** One round of the loop of [apply_unit] does to the heap what
    [CNF.unit_body] does to the value, and only adds objects. *)
Lemma unit_body_sim h uc ku u acc other k :
  h !! uc = Some (Py.OClause ku) → h !! other = Some (Py.OClause k) →
  valid_set h acc →
  ∃ acc' h', Py.unit_body uc u acc other h = Some (acc', h') ∧
    h ⊆ h' ∧ valid_set h' acc' ∧
    dom acc' = CNF.unit_body ku u (dom acc) k.
Proof.
  intros Huc Hother Hv. unfold Py.unit_body, CNF.unit_body.
  rewrite (bind_spec _ _ _ _ _ (Clause_eq_spec _ _ _ _ _ Hother Huc)).
  destruct (Clause.eq k ku); [by exists acc, h|].
  rewrite (bind_spec _ _ _ _ _ (get_lits_spec _ _ _ Hother)).
  case_bool_decide; [by exists acc, h|].
  case_bool_decide.
  - destruct (Clause_dupe_spec h other k Hother) as (d & Hd & Hfresh & Hsub).
    rewrite (bind_spec _ _ _ _ _ Hd).
    rewrite (bind_spec _ _ _ _ _ (Clause_remove_spec _ d k (- u)
                                     (lookup_insert_eq _ _ _))).
    rewrite insert_insert_eq.
    set (h' := <[ d := Py.OClause (k ∖ {[ - u ]}) ]> h).
    assert (h ⊆ h') by by apply insert_subseteq.
    destruct (set_add_spec h' acc d (k ∖ {[ - u ]})) as (acc' & Ha & Hv' & Hdom).
    { apply lookup_insert_eq. }
    { by eapply valid_set_weaken. }
    exists acc', h'. split; [done|]. split; [done|]. split; [done|].
    rewrite Hdom. unfold Clause.remove. by rewrite dupe_id.
  - destruct (set_add_spec h acc other k Hother Hv) as (acc' & Ha & Hv' & Hdom).
    by exists acc', h.
Qed.

Lemma foldM_unit_body_sim uc ku u kcs : ∀ acc h,
  h !! uc = Some (Py.OClause ku) → points_to h kcs → valid_set h acc →
  ∃ acc' h', Py.foldM (Py.unit_body uc u) acc kcs.*2 h = Some (acc', h') ∧
    h ⊆ h' ∧ valid_set h' acc' ∧
    dom acc' = foldl (CNF.unit_body ku u) (dom acc) kcs.*1.
Proof.
  induction kcs as [|[k c] kcs IH]; intros acc h Huc Hp Hv.
  - by exists acc, h.
  - apply Forall_cons in Hp as [Hc Hp]. simpl in Hc.
    destruct (unit_body_sim h uc ku u acc c k Huc Hc Hv)
      as (acc1 & h1 & Hb & Hsub1 & Hv1 & Hd1).
    destruct (IH acc1 h1) as (acc' & h' & Hf & Hsub & Hv' & Hd').
    { eapply lookup_weaken; eauto. }
    { by eapply points_to_weaken. }
    { done. }
    exists acc', h'. simpl. rewrite (bind_spec _ _ _ _ _ Hb).
    split; [done|]. split; [by etrans|]. split; [done|]. by rewrite Hd', Hd1.
Qed.

Lemma get_clauses_spec h f s nl nc :
  h !! f = Some (Py.OCNF s nl nc) → Py.get_clauses f h = Some (s, h).
Proof. intros H. unfold Py.get_clauses. by rewrite H. Qed.

Lemma put_clauses_spec h f s nl nc s' :
  h !! f = Some (Py.OCNF s nl nc) →
  Py.put_clauses f s' h = Some ((), <[ f := Py.OCNF s' nl nc ]> h).
Proof. intros H. unfold Py.put_clauses. by rewrite H. Qed.

(** Assigning a set of clauses that is valid on the heap to [f.clauses]. *)
Lemma repr_put h0 h f s nl nc s' (F : CNF.t) :
  h0 ⊆ h → h !! f = Some (Py.OCNF s nl nc) → valid_set h s' →
  nl = CNF.num_literals F → nc = CNF.num_clauses F →
  repr (<[ f := Py.OCNF s' nl nc ]> h) f (CNF.set_clauses F (dom s')) ∧
  frame f h0 (<[ f := Py.OCNF s' nl nc ]> h).
Proof.
  intros Hsub Hf Hv -> ->. split.
  - exists s'. split; [by rewrite lookup_insert_eq|]. split; [done|].
    intros k c Hk. rewrite lookup_insert_ne; [by apply Hv|].
    intros ->. apply Hv in Hk. congruence.
  - intros l x Hl Hne. rewrite lookup_insert_ne by done.
    eapply lookup_weaken; eauto.
Qed.

(** [apply_unit] on the object at [f] is [CNF.apply_unit] on its value;
    no other object that was on the heap changes. *)
Lemma apply_unit_sim o h f (F : CNF.t) :
  repr h f F →
  ∃ h', Py.apply_unit o f h
          = Some (((CNF.apply_unit o F).1.1, (CNF.apply_unit o F).2), h') ∧
        repr h' f (CNF.apply_unit o F).1.2 ∧ frame f h h'.
Proof.
  intros (s & Hf & Hdom & Hv).
  destruct (members_entries h s Hv) as (kcs & Hm & He & Hp & _).
  unfold Py.apply_unit, CNF.apply_unit.
  rewrite (bind_spec _ _ _ _ _ (get_clauses_spec _ _ _ _ _ Hf)).
  rewrite Hm, (bind_spec _ _ _ _ _ (unit_clauses_of_spec _ _ Hp)).
  rewrite <- Hdom, He, filter_fst_entries, !pick_fmap.
  destruct (pick (filter _ kcs) o) as [[[k c]|] o'] eqn:Hpick; simpl.
  2:{ exists h. split; [done|]. split; [by exists s|apply frame_refl]. }
  assert (h !! c = Some (Py.OClause k)) as Hc.
  { apply pick_Some, list_elem_of_filter in Hpick as [_ Hin].
    eapply Forall_forall in Hp; [|exact Hin]. done. }
  rewrite (bind_spec _ _ _ _ _ (get_lits_spec _ _ _ Hc)).
  destruct (elements k) as [|u [|]] eqn:Hek;
    try (exists h; split; [done|]; split; [by exists s|apply frame_refl]).
  destruct (foldM_unit_body_sim c k u kcs ∅ h Hc Hp)
    as (new & h1 & Hfold & Hsub & Hv1 & Hd1); [done|].
  rewrite (bind_spec _ _ _ _ _ Hfold).
  assert (h1 !! f = Some (Py.OCNF s (CNF.num_literals F) (CNF.num_clauses F)))
    as Hf1 by (eapply lookup_weaken; eauto).
  rewrite (bind_spec _ _ _ _ _ (put_clauses_spec _ _ _ _ _ new Hf1)).
  eexists. split; [done|]. simpl.
  rewrite dom_empty_L in Hd1. rewrite <- Hd1.
  by eapply repr_put.
Qed.

Lemma literals_of_sim h (s : gmap (gset Z) Py.loc) :
  valid_set h s → Py.literals_of s h = Some (CNF.literals_of (dom s), h).
Proof.
  intros Hv. destruct (members_entries h s Hv) as (kcs & Hm & He & Hp & _).
  unfold Py.literals_of, CNF.literals_of.
  by rewrite Hm, (bind_spec _ _ _ _ _ (mapM_get_lits _ _ Hp)), He.
Qed.

Lemma get_literals_sim h f (F : CNF.t) :
  repr h f F → Py.get_literals f h = Some (CNF.get_literals F, h).
Proof.
  intros (s & Hf & Hdom & Hv). unfold Py.get_literals, CNF.get_literals.
  rewrite (bind_spec _ _ _ _ _ (get_clauses_spec _ _ _ _ _ Hf)).
  by rewrite literals_of_sim, Hdom.
Qed.

Lemma is_sat_sim h f (F : CNF.t) :
  repr h f F → Py.is_sat f h = Some (CNF.is_sat F, h).
Proof.
  intros (s & Hf & Hdom & Hv). unfold Py.is_sat, CNF.is_sat.
  rewrite (bind_spec _ _ _ _ _ (get_clauses_spec _ _ _ _ _ Hf)).
  by rewrite <- Hdom, size_dom.
Qed.

Lemma existsb_fmap {A B} (g : A → B) (p : B → bool) (l : list A) :
  existsb p (g <$> l) = existsb (λ a, p (g a)) l.
Proof. induction l as [|a l IH]; [done|]. csimpl. by rewrite IH. Qed.

Lemma is_unsat_sim h f (F : CNF.t) :
  repr h f F → Py.is_unsat f h = Some (CNF.is_unsat F, h).
Proof.
  intros (s & Hf & Hdom & Hv).
  destruct (members_entries h s Hv) as (kcs & Hm & He & Hp & _).
  unfold Py.is_unsat, CNF.is_unsat.
  rewrite (bind_spec _ _ _ _ _ (get_clauses_spec _ _ _ _ _ Hf)).
  rewrite Hm, (bind_spec _ _ _ _ _ (mapM_Clause_len _ _ Hp)).
  by rewrite <- Hdom, He, existsb_fmap.
Qed.

Lemma pure_body_sim h P st c k :
  h !! c = Some (Py.OClause k) → valid_set h st.1 →
  ∃ st', Py.pure_body P st c h = Some (st', h) ∧ valid_set h st'.1 ∧
         (dom st'.1, st'.2) = CNF.pure_body P (dom st.1, st.2) k.
Proof.
  intros Hc Hv. unfold Py.pure_body, CNF.pure_body.
  rewrite (bind_spec _ _ _ _ _ (get_lits_spec _ _ _ Hc)). simpl.
  case_bool_decide; [|by exists (st.1, S st.2)].
  destruct (set_add_spec h st.1 c k Hc Hv) as (keep & Ha & Hv' & Hd).
  rewrite (bind_spec _ _ _ _ _ Ha). exists (keep, st.2).
  split; [done|]. split; [done|]. simpl. by rewrite Hd.
Qed.

Lemma foldM_pure_body_sim h P kcs : ∀ st,
  points_to h kcs → valid_set h st.1 →
  ∃ st', Py.foldM (Py.pure_body P) st kcs.*2 h = Some (st', h) ∧
         valid_set h st'.1 ∧
         (dom st'.1, st'.2) = foldl (CNF.pure_body P) (dom st.1, st.2) kcs.*1.
Proof.
  induction kcs as [|[k c] kcs IH]; intros st Hp Hv.
  - by exists st.
  - apply Forall_cons in Hp as [Hc Hp]. simpl in Hc.
    destruct (pure_body_sim h P st c k Hc Hv) as (st1 & Hb & Hv1 & Hd1).
    destruct (IH st1 Hp Hv1) as (st' & Hf & Hv' & Hd').
    exists st'. simpl. rewrite (bind_spec _ _ _ _ _ Hb).
    split; [done|]. split; [done|]. by rewrite Hd', Hd1.
Qed.

(** [apply_pure] on the object at [f] is [CNF.apply_pure] on its value. *)
Lemma apply_pure_sim h f (F : CNF.t) :
  repr h f F →
  ∃ h', Py.apply_pure f h = Some ((CNF.apply_pure F).1, h') ∧
        repr h' f (CNF.apply_pure F).2 ∧ frame f h h'.
Proof.
  intros HR. pose proof HR as (s & Hf & Hdom & Hv).
  destruct (members_entries h s Hv) as (kcs & Hm & He & Hp & _).
  unfold Py.apply_pure, CNF.apply_pure.
  rewrite (bind_spec _ _ _ _ _ (get_literals_sim _ _ _ HR)).
  case_bool_decide.
  { exists h. split; [done|]. split; [done|apply frame_refl]. }
  rewrite (bind_spec _ _ _ _ _ (get_clauses_spec _ _ _ _ _ Hf)).
  destruct (foldM_pure_body_sim h
              (filter (λ l, - l ∉ CNF.get_literals F) (CNF.get_literals F))
              kcs (∅, 0%nat) Hp) as ([keep n] & Hfold & Hv' & Hd); [done|].
  rewrite Hm, (bind_spec _ _ _ _ _ Hfold).
  rewrite (bind_spec _ _ _ _ _ (put_clauses_spec _ _ _ _ _ keep Hf)).
  simpl in Hd. rewrite dom_empty_L, <- He, Hdom in Hd. rewrite <- Hd. simpl.
  eexists. split; [done|]. by eapply repr_put.
Qed.

Lemma unit_loop_sim n : ∀ o h f (F : CNF.t),
  repr h f F →
  match CNF.unit_loop n o F with
  | Some r =>
      ∃ h', Py.unit_loop n o f h = Some (flow_tag r, h') ∧ frame f h h' ∧
            ∀ F1 o1, r = CNF.Fell F1 o1 → repr h' f F1
  | None => Py.unit_loop n o f h = None
  end.
Proof.
  induction n as [|n IH]; intros o h f F HR; [done|]. simpl.
  destruct (apply_unit_sim o h f F HR) as (h1 & Hau & HR1 & Hfr1).
  rewrite (bind_spec _ _ _ _ _ Hau).
  destruct (CNF.apply_unit o F) as [[found F'] o']. simpl in *.
  destruct found.
  - rewrite (bind_spec _ _ _ _ _ (is_unsat_sim _ _ _ HR1)).
    destruct (CNF.is_unsat F').
    + exists h1. split; [done|]. split; [done|]. by intros.
    + specialize (IH o' h1 f F' HR1).
      destruct (CNF.unit_loop n o' F') as [r|]; [|done].
      destruct IH as (h' & Hl & Hfr & Hrep). exists h'.
      split; [done|]. split; [by eapply frame_trans|done].
  - exists h1. split; [done|]. split; [done|]. by intros ? ? [= <- <-].
Qed.

Lemma pure_loop_sim n : ∀ h f (F : CNF.t),
  repr h f F →
  match CNF.pure_loop n F with
  | Some F2 =>
      ∃ h', Py.pure_loop n f h = Some ((), h') ∧ frame f h h' ∧ repr h' f F2
  | None => Py.pure_loop n f h = None
  end.
Proof.
  induction n as [|n IH]; intros h f F HR; [done|]. simpl.
  destruct (apply_pure_sim h f F HR) as (h1 & Hap & HR1 & Hfr1).
  rewrite (bind_spec _ _ _ _ _ Hap).
  destruct (CNF.apply_pure F) as [removed F']. simpl in *.
  destruct removed.
  - specialize (IH h1 f F' HR1).
    destruct (CNF.pure_loop n F') as [F2|]; [|done].
    destruct IH as (h' & Hl & Hfr & Hrep). exists h'.
    split; [done|]. split; [by eapply frame_trans|done].
  - by exists h1.
Qed.

(** [[c.dupe() for c in ...]]: new objects with the same literals. *)
Lemma mapM_dupe_sim kcs : ∀ h,
  points_to h kcs →
  ∃ (kds : list (gset Z * Py.loc)) h1,
    Py.mapM Py.Clause_dupe kcs.*2 h = Some (kds.*2, h1) ∧
    kds.*1 = kcs.*1 ∧ h ⊆ h1 ∧ points_to h1 kds ∧
    Forall (λ kd, h !! kd.2 = None) kds.
Proof.
  induction kcs as [|[k c] kcs IH]; intros h Hp.
  - exists [], h. by repeat split.
  - apply Forall_cons in Hp as [Hc Hp]. simpl in Hc.
    destruct (Clause_dupe_spec h c k Hc) as (d & Hd & Hfresh & Hsub).
    destruct (IH (<[ d := Py.OClause k ]> h)) as (kds & h1 & Hm & H1 & Hs1 & Hp1 & Hf1).
    { by eapply points_to_weaken. }
    exists ((k, d) :: kds), h1. csimpl.
    rewrite (bind_spec _ _ _ _ _ Hd), (bind_spec _ _ _ _ _ Hm).
    split; [done|]. split; [by rewrite H1|]. split; [by etrans|]. split.
    + constructor; [|done]. simpl. eapply lookup_weaken; [|exact Hs1].
      apply lookup_insert_eq.
    + constructor; [done|]. eapply Forall_impl; [exact Hf1|].
      intros kd Hkd. simpl in *. eapply lookup_weaken_None; eauto.
Qed.

(** [set(l)] for a list [l] of clause objects. *)
Lemma foldM_set_add_sim h kds : ∀ acc,
  points_to h kds → valid_set h acc →
  ∃ acc', Py.foldM Py.set_add acc kds.*2 h = Some (acc', h) ∧
    valid_set h acc' ∧ dom acc' = list_to_set kds.*1 ∪ dom acc ∧
    ∀ k c, acc' !! k = Some c → acc !! k = Some c ∨ c ∈ kds.*2.
Proof.
  induction kds as [|[k d] kds IH]; intros acc Hp Hv.
  - exists acc. split; [done|]. split; [done|]. split; [set_solver|]. auto.
  - apply Forall_cons in Hp as [Hd Hp]. simpl in Hd.
    destruct (set_add_spec h acc d k Hd Hv) as (acc1 & Ha & Hv1 & Hd1).
    destruct (IH acc1 Hp Hv1) as (acc' & Hf & Hv' & Hd' & Hfrom).
    exists acc'. csimpl. rewrite (bind_spec _ _ _ _ _ Ha).
    split; [done|]. split; [done|].
    split; [rewrite Hd', Hd1; csimpl; clear; set_solver|].
    intros k' c' Hk'. destruct (Hfrom k' c' Hk') as [H1|H1]; [|by right; right].
    unfold Py.set_add in Ha.
    rewrite (bind_spec _ _ _ _ _ (get_lits_spec _ _ _ Hd)) in Ha.
    injection Ha as <-. destruct (acc !! k); [by left|].
    apply lookup_insert_Some in H1 as [[<- <-]|[_ ?]]; [right; left|by left].
Qed.

Lemma CNF_init_sim h kds :
  points_to h kds →
  ∃ g s nl nc,
    Py.CNF_init kds.*2 None None h = Some (g, <[ g := Py.OCNF s nl nc ]> h) ∧
    h !! g = None ∧
    repr (<[ g := Py.OCNF s nl nc ]> h) g (CNF.of_list kds.*1) ∧
    ∀ k c, s !! k = Some c → c ∈ kds.*2.
Proof.
  intros Hp. unfold Py.CNF_init.
  destruct (foldM_set_add_sim h kds ∅ Hp) as (s & Hf & Hv & Hd & Hfrom); [done|].
  rewrite (bind_spec _ _ _ _ _ Hf).
  rewrite (bind_spec _ _ _ _ _
             (bind_spec _ _ _ _ _ (literals_of_sim _ _ Hv))).
  destruct (alloc_spec
              (Py.OCNF s (Z.of_nat (size (CNF.literals_of (dom s))))
                 (Z.of_nat (size s))) h) as (g & Hg & Hfresh & Hsub).
  rewrite Hg. eexists g, s, _, _.
  split; [done|]. split; [done|].
  rewrite dom_empty_L, (right_id_L ∅ (∪)) in Hd. split.
  - exists s. unfold CNF.of_list, CNF.init. simpl. rewrite <- Hd, size_dom.
    split; [by rewrite lookup_insert_eq|]. split; [done|].
    by eapply valid_set_weaken.
  - intros k c Hk. destruct (Hfrom k c Hk) as [?|?]; [done|done].
Qed.

(** [add_literal] copies: the new formula and all its clauses are new
    objects, and every object that was on the heap is as it was. *)
Lemma add_literal_sim h f (F : CNF.t) l :
  repr h f F →
  ∃ g h' s nl nc,
    Py.add_literal f l h = Some (g, h') ∧ h ⊆ h' ∧ h !! g = None ∧
    repr h' g (CNF.add_literal F l) ∧
    h' !! g = Some (Py.OCNF s nl nc) ∧
    ∀ k c, s !! k = Some c → h !! c = None.
Proof.
  intros (s & Hf & Hdom & Hv).
  destruct (members_entries h s Hv) as (kcs & Hm & He & Hp & _).
  unfold Py.add_literal, CNF.add_literal.
  rewrite (bind_spec _ _ _ _ _ (get_clauses_spec _ _ _ _ _ Hf)).
  destruct (mapM_dupe_sim kcs h Hp) as (kds & h1 & Hmap & H1 & Hsub1 & Hp1 & Hfr1).
  rewrite Hm, (bind_spec _ _ _ _ _ Hmap).
  destruct (Clause_init_spec h1 [l]) as (c & Hc & Hfresh & Hsub2).
  rewrite (bind_spec _ _ _ _ _ Hc).
  set (h2 := <[ c := Py.OClause (list_to_set [l]) ]> h1) in *.
  destruct (CNF_init_sim h2 (kds ++ [(list_to_set [l], c)]))
    as (g & s' & nl & nc & Hinit & Hg & HR & Hfrom).
  { apply Forall_app. split; [by eapply points_to_weaken|].
    constructor; [|done]. apply lookup_insert_eq. }
  rewrite fmap_app in Hinit. rewrite fmap_app in HR.
  setoid_rewrite fmap_app in Hfrom. simpl in Hinit, HR, Hfrom.
  rewrite Hinit. exists g, (<[ g := Py.OCNF s' nl nc ]> h2), s', nl, nc.
  assert (h ⊆ h2) by by etrans.
  split; [done|]. split; [etrans; [done|by apply insert_subseteq]|].
  split; [by eapply lookup_weaken_None|]. split.
  - rewrite <- Hdom, He, <- H1.
    replace (Clause.dupe <$> kds.*1) with kds.*1; [done|].
    clear. induction (kds.*1) as [|k ks IH]; [done|].
    csimpl. by rewrite dupe_id, <- IH.
  - split; [by rewrite lookup_insert_eq|].
    intros k d [Hd|Hd%list_elem_of_singleton]%Hfrom%elem_of_app.
    + apply list_elem_of_fmap in Hd as (kd & -> & Hkd).
      eapply Forall_forall in Hfr1; [|exact Hkd]. done.
    + subst d. eapply lookup_weaken_None; eauto.
Qed.

Lemma repr_weaken h h' f (F : CNF.t) : h ⊆ h' → repr h f F → repr h' f F.
Proof.
  intros Hsub (s & Hf & Hdom & Hv). exists s.
  split; [by eapply lookup_weaken|]. split; [done|].
  by eapply valid_set_weaken.
Qed.

(** A run that changes only an object made after [h] was taken leaves the
    whole of [h] as it was. *)
Lemma frame_fresh_subseteq (h h1 h2 : gmap nat Py.obj) g :
  h ⊆ h1 → h !! g = None → frame g h1 h2 → h ⊆ h2.
Proof.
  intros Hsub Hg Hfr. apply map_subseteq_spec. intros l x Hl.
  apply Hfr; [by eapply lookup_weaken|]. intros ->. congruence.
Qed.

Section split.
Variable pd : oracle → nat → Py.M (bool * oracle).
Variable vd : oracle → CNF.t → option (bool * oracle).
Hypothesis Hsim : ∀ o h f (F : CNF.t),
  repr h f F →
  match vd o F with
  | Some r => ∃ h', pd o f h = Some (r, h') ∧ frame f h h'
  | None => pd o f h = None
  end.

Lemma apply_split_sim o h f (F : CNF.t) :
  repr h f F →
  match CNF.apply_split vd o F with
  | Some r => ∃ h', Py.apply_split pd o f h = Some (r, h') ∧ h ⊆ h'
  | None => Py.apply_split pd o f h = None
  end.
Proof.
  intros HR. unfold CNF.apply_split, Py.apply_split.
  rewrite (bind_spec _ _ _ _ _ (get_literals_sim _ _ _ HR)).
  destruct (pick (elements (CNF.get_literals F)) o) as [[l|] o1].
  2:{ by exists h. }
  destruct (add_literal_sim h f F l HR)
    as (g & h1 & _ & _ & _ & Hadd & Hsub1 & Hg & HRg & _).
  rewrite (bind_spec _ _ _ _ _ Hadd).
  pose proof (Hsim o1 h1 g _ HRg) as Hleft.
  destruct (vd o1 (CNF.add_literal F l)) as [[b o2]|].
  2:{ unfold Py.bind. by rewrite Hleft. }
  destruct Hleft as (h2 & Hleft & Hfr2).
  rewrite (bind_spec _ _ _ _ _ Hleft).
  pose proof (frame_fresh_subseteq h h1 h2 g Hsub1 Hg Hfr2) as Hsub2.
  destruct b; [by exists h2|].
  pose proof (repr_weaken _ _ _ _ Hsub2 HR) as HR2.
  destruct (add_literal_sim h2 f F (- l) HR2)
    as (g' & h3 & _ & _ & _ & Hadd' & Hsub3 & Hg' & HRg' & _).
  rewrite (bind_spec _ _ _ _ _ Hadd').
  pose proof (Hsim o2 h3 g' _ HRg') as Hright.
  destruct (vd o2 (CNF.add_literal F (- l))) as [r|]; [|done].
  destruct Hright as (h4 & Hright & Hfr4). exists h4. split; [done|].
  etrans; [exact Hsub2|]. by eapply frame_fresh_subseteq.
Qed.
End split.

(** [dpll] on the object at [f] returns what [CNF.dpll_fuel] returns on its
    value, and changes no other object that was on the heap. *)
Lemma dpll_sim n : ∀ o h f (F : CNF.t),
  repr h f F →
  match CNF.dpll_fuel n o F with
  | Some r => ∃ h', Py.dpll n o f h = Some (r, h') ∧ frame f h h'
  | None => Py.dpll n o f h = None
  end.
Proof.
  induction n as [|n IH]; intros o h f F HR; [done|].
  cbn [CNF.dpll_fuel Py.dpll].
  pose proof (unit_loop_sim (S n) o h f F HR) as Hul.
  destruct (CNF.unit_loop (S n) o F) as [[b o1|F1 o1]|].
  3:{ unfold Py.bind. by rewrite Hul. }
  { destruct Hul as (h1 & Hul & Hfr1 & _).
    rewrite (bind_spec _ _ _ _ _ Hul). by exists h1. }
  destruct Hul as (h1 & Hul & Hfr1 & HR1).
  rewrite (bind_spec _ _ _ _ _ Hul). cbn [flow_tag]. cbv beta iota.
  specialize (HR1 _ _ eq_refl).
  pose proof (pure_loop_sim (S n) h1 f F1 HR1) as Hpl.
  destruct (CNF.pure_loop (S n) F1) as [F2|].
  2:{ unfold Py.bind. by rewrite Hpl. }
  destruct Hpl as (h2 & Hpl & Hfr2 & HR2).
  rewrite (bind_spec _ _ _ _ _ Hpl).
  rewrite (bind_spec _ _ _ _ _ (is_sat_sim _ _ _ HR2)).
  assert (frame f h h2) as Hfr by by eapply frame_trans.
  destruct (CNF.is_sat F2); [by exists h2|].
  rewrite (bind_spec _ _ _ _ _ (is_unsat_sim _ _ _ HR2)).
  destruct (CNF.is_unsat F2); [by exists h2|].
  pose proof (apply_split_sim (Py.dpll n) (CNF.dpll_fuel n) IH o1 h2 f F2 HR2)
    as Hsp.
  destruct (CNF.apply_split (CNF.dpll_fuel n) o1 F2) as [r|]; [|done].
  destruct Hsp as (h3 & Hsp & Hsub). exists h3. split; [done|].
  eapply frame_trans; [exact Hfr|]. by apply frame_subseteq.
Qed.

#[global] Instance valid_set_dec h s : Decision (valid_set h s).
Proof.
  unfold valid_set. apply _.
Defined.

#[global] Instance repr_dec h f F : Decision (repr h f F).
Proof.
  destruct (h !! f) as [[ls|s nl nc]|] eqn:Hf.
  - right. intros (s & Hs & _). congruence.
  - destruct (decide (nl = CNF.num_literals F ∧ nc = CNF.num_clauses F ∧
                      dom s = CNF.clauses F ∧ valid_set h s))
      as [(-> & -> & Hd & Hv)|Hn].
    + left. exists s. split_and!; assumption.
    + right. intros (s' & Hs & Hd & Hv). rewrite Hf in Hs.
      injection Hs as <- -> ->. apply Hn. split_and!; done.
  - right. intros (s & Hs & _). congruence.
Defined.

(** [mk] builds on the heap the formula that [mk] builds as a value. *)
Lemma mapM_Clause_init_sim cl : ∀ h,
  ∃ (kds : list (gset Z * nat)) h1,
    Py.mapM Py.Clause_init cl h = Some (kds.*2, h1) ∧
    kds.*1 = Clause.init <$> cl ∧ h ⊆ h1 ∧ points_to h1 kds.
Proof.
  induction cl as [|ls cl IH]; intros h.
  - exists [], h. split_and!; try done. constructor.
  - destruct (Clause_init_spec h ls) as (d & Hd & Hfresh & Hsub).
    destruct (IH (<[ d := Py.OClause (list_to_set ls) ]> h))
      as (kds & h1 & Hm & H1 & Hs1 & Hp1).
    exists ((list_to_set ls, d) :: kds), h1. csimpl.
    rewrite (bind_spec _ _ _ _ _ Hd), (bind_spec _ _ _ _ _ Hm).
    split; [done|]. split; [by rewrite H1|]. split; [by etrans|].
    constructor; [|done]. simpl. eapply lookup_weaken; [|exact Hs1].
    apply lookup_insert_eq.
Qed.

Lemma mk_sim cl h :
  ∃ f h', Py.mk cl h = Some (f, h') ∧ h ⊆ h' ∧ repr h' f (mk cl).
Proof.
  unfold Py.mk, mk.
  destruct (mapM_Clause_init_sim cl h) as (kds & h1 & Hm & H1 & Hs1 & Hp1).
  rewrite (bind_spec _ _ _ _ _ Hm).
  destruct (CNF_init_sim h1 kds Hp1) as (g & s & nl & nc & Hi & Hg & HR & _).
  rewrite Hi, H1 in *. eexists _, _. split; [done|]. split; [|done].
  etrans; [done|]. by apply insert_subseteq.
Qed.

(** * The claims *)

(** C1.  For every formula whose literals are non-zero integers, [dpll]
    returns [true] if and only if some assignment satisfies every clause,
    and it returns [false] if and only if no assignment does.  The run is
    the one of an arbitrary oracle, that is of arbitrary iteration orders
    and random choices.  (The proof does not use the hypothesis: [lit_true]
    reads a literal 0 as the negative literal of variable 0, and with that
    reading [dpll_spec] holds for every formula.) *)
Theorem dpll_decides_satisfiability (F : CNF.t) (o : oracle) :
  nonzero (CNF.clauses F) →
  ((∃ o', CNF.dpll o F = Some (true, o')) ↔ satisfiable (CNF.clauses F)) ∧
  ((∃ o', CNF.dpll o F = Some (false, o')) ↔ ¬ satisfiable (CNF.clauses F)).
Proof.
  intros _. destruct (dpll_spec o F) as (b & o' & Hd & Hb). rewrite Hd.
  split; split.
  - intros (o'' & [= -> _]). tauto.
  - intros Hs. apply Hb in Hs as ->. eauto.
  - intros (o'' & [= -> _]) Hs. apply Hb in Hs. done.
  - intros Hs. destruct b; [tauto|eauto].
Qed.

Lemma dpll_decides_satisfiability_witness :
  nonzero (CNF.clauses (mk [[1; 2]; [-1; 2]; [-2; 3]])) ∧
  (((∃ o', CNF.dpll [1%nat] (mk [[1; 2]; [-1; 2]; [-2; 3]]) = Some (true, o'))
    ↔ satisfiable (CNF.clauses (mk [[1; 2]; [-1; 2]; [-2; 3]]))) ∧
   ((∃ o', CNF.dpll [1%nat] (mk [[1; 2]; [-1; 2]; [-2; 3]]) = Some (false, o'))
    ↔ ¬ satisfiable (CNF.clauses (mk [[1; 2]; [-1; 2]; [-2; 3]])))).
Proof.
  split; [by_eval|].
  apply (dpll_decides_satisfiability (mk [[1; 2]; [-1; 2]; [-2; 3]]) [1%nat]).
  by_eval.
Defined.

(** C2.  [dpll] terminates on every formula: a bound of two more than the
    number of distinct variables is never hit.  The recursion is bounded
    because of what a run does when it reaches the split with a formula
    [F2]: it picks a literal [l] of [F2], and its result is that of the
    recursive call on [F2] with the unit clause [{l}] added and, if that
    one answers [False], of the call on [F2] with [{-l}] added.  In either
    sub-formula the added clause [{k}] is the one that is propagated
    first, which removes the variable of [k]; when the sub-formula comes
    to its own split it has fewer variables than [F2], and [F2] has no
    more than the formula the run started from. *)
Theorem dpll_terminates (F : CNF.t) :
  (∀ o n, (size (CNF.variables F) + 2 ≤ n)%nat →
     ∃ b o', CNF.dpll_fuel n o F = Some (b, o')) ∧
  (∀ o, ∃ b o', CNF.dpll o F = Some (b, o')) ∧
  (∀ n o F1 o1 F2,
     CNF.unit_loop (S n) o F = Some (CNF.Fell F1 o1) →
     CNF.pure_loop (S n) F1 = Some F2 →
     CNF.is_sat F2 = false → CNF.is_unsat F2 = false →
     (size (CNF.variables F2) ≤ size (CNF.variables F))%nat ∧
     ∃ l o2,
       pick (elements (CNF.get_literals F2)) o1 = (Some l, o2) ∧
       CNF.dpll_fuel (S n) o F =
         match CNF.dpll_fuel n o2 (CNF.add_literal F2 l) with
         | None => None
         | Some (true, o3) => Some (true, o3)
         | Some (false, o3) => CNF.dpll_fuel n o3 (CNF.add_literal F2 (- l))
         end ∧
       ∀ k, k = l ∨ k = - l →
         CNF.clauses (CNF.add_literal F2 k)
           = CNF.clauses F2 ∪ {[ {[ k ]} ]} ∧
         (∀ o', ∃ G' o'',
            CNF.apply_unit o' (CNF.add_literal F2 k) = (true, G', o'') ∧
            CNF.clauses G'
              = propagate k (CNF.clauses (CNF.add_literal F2 k)) ∧
            Z.abs k ∉ CNF.variables G' ∧
            (size (CNF.variables G') < size (CNF.variables F2))%nat) ∧
         (∀ m m' o' G1 o1' G2,
            CNF.unit_loop m o' (CNF.add_literal F2 k)
              = Some (CNF.Fell G1 o1') →
            CNF.pure_loop m' G1 = Some G2 →
            (size (CNF.variables G2) < size (CNF.variables F2))%nat)).
Proof.
  split; [|split].
  - intros o n Hn. destruct (dpll_fuel_spec n o F) as (b & o' & H & _);
      [lia..|]. eauto.
  - intros o. destruct (dpll_spec o F) as (b & o' & H & _). eauto.
  - intros n o F1 o1 F2 Hul Hpl Hsat Hunsat.
    pose proof (unit_loop_sound _ _ _ _ Hul) as (Hnu1 & _ & Hsub1 & _).
    pose proof (pure_loop_sound _ _ _ Hpl) as (Hsub2 & _).
    pose proof (no_unit_subseteq _ _ Hsub2 Hnu1) as Hnu2.
    split.
    { apply subseteq_size. etrans; [|exact Hsub1].
      rewrite !variables_vars. by apply vars_mono. }
    destruct (get_literals_nonempty F2 Hsat Hunsat) as [l0 Hl0].
    destruct (pick (elements (CNF.get_literals F2)) o1) as [[l|] o2] eqn:Hp;
      [|apply pick_None in Hp; apply elem_of_elements in Hl0;
        rewrite Hp in Hl0; by inversion Hl0].
    assert (Hl : l ∈ CNF.get_literals F2)
      by by apply pick_Some, elem_of_elements in Hp.
    exists l, o2. split; [done|]. split.
    { cbn [CNF.dpll_fuel]. rewrite Hul, Hpl, Hsat, Hunsat.
      unfold CNF.apply_split. by rewrite Hp. }
    intros k Hk.
    pose proof (variables_add_literal F2 l k Hl Hk) as Hv.
    split; [apply clauses_add_literal|]. split.
    + intros o'.
      destruct (apply_unit_found o' (CNF.add_literal F2 k) (has_unit_add F2 k))
        as (u & o'' & Hu & Heq).
      assert (u = k) as ->.
      { rewrite clauses_add_literal in Hu.
        apply elem_of_union in Hu as [Hu|Hu]; [|set_solver].
        destruct Hnu2. exists {[ u ]}. by rewrite size_singleton. }
      eexists _, o''. split; [exact Heq|]. simpl. split; [done|].
      pose proof (vars_propagate_subseteq k
                    (CNF.clauses (CNF.add_literal F2 k))) as Hsub.
      rewrite !variables_vars in *. simpl.
      split; [set_solver|].
      apply subset_size. rewrite <- Hv. split; [set_solver|].
      intros Hsub'. pose proof (vars_unit k _ Hu). set_solver.
    + intros m m' o' G1 o1' G2 Hul' Hpl'.
      apply unit_loop_sound in Hul' as (_ & _ & _ & Hlt).
      apply pure_loop_sound in Hpl' as (Hsub' & _).
      specialize (Hlt (has_unit_add F2 k)). rewrite Hv in Hlt.
      eapply Nat.le_lt_trans; [|exact Hlt].
      apply subseteq_size. rewrite !variables_vars. by apply vars_mono.
Qed.

Lemma dpll_terminates_witness :
  (size (CNF.variables ex_split) + 2 ≤ 4)%nat ∧
  CNF.unit_loop 4 [] ex_split = Some (CNF.Fell ex_split []) ∧
  CNF.pure_loop 4 ex_split = Some ex_split ∧
  CNF.is_sat ex_split = false ∧ CNF.is_unsat ex_split = false ∧
  (∃ b o', CNF.dpll_fuel 4 [] ex_split = Some (b, o')) ∧
  ∃ l o2,
    pick (elements (CNF.get_literals ex_split)) [] = (Some l, o2) ∧
    CNF.dpll_fuel 4 [] ex_split =
      match CNF.dpll_fuel 3 o2 (CNF.add_literal ex_split l) with
      | None => None
      | Some (true, o3) => Some (true, o3)
      | Some (false, o3) => CNF.dpll_fuel 3 o3 (CNF.add_literal ex_split (- l))
      end ∧
    ∃ G' o'',
      CNF.apply_unit [] (CNF.add_literal ex_split (- l)) = (true, G', o'') ∧
      CNF.clauses G'
        = propagate (- l) (CNF.clauses (CNF.add_literal ex_split (- l))) ∧
      Z.abs (- l) ∉ CNF.variables G' ∧
      (size (CNF.variables G') < size (CNF.variables ex_split))%nat.
Proof.
  assert (H0 : (size (CNF.variables ex_split) + 2 ≤ 4)%nat) by by_eval.
  assert (H1 : CNF.unit_loop 4 [] ex_split = Some (CNF.Fell ex_split []))
    by by_eval.
  assert (H2 : CNF.pure_loop 4 ex_split = Some ex_split) by by_eval.
  assert (H3 : CNF.is_sat ex_split = false) by by_eval.
  assert (H4 : CNF.is_unsat ex_split = false) by by_eval.
  split; [exact H0|]. split; [exact H1|]. split; [exact H2|].
  split; [exact H3|]. split; [exact H4|]. split.
  - exact (proj1 (dpll_terminates _) [] 4%nat H0).
  - destruct (proj2 (proj2 (dpll_terminates ex_split))
                3%nat [] ex_split [] ex_split H1 H2 H3 H4)
      as (_ & l & o2 & Hp & Heq & Hk).
    exists l, o2. split; [exact Hp|]. split; [exact Heq|].
    exact (proj1 (proj2 (Hk (- l) (or_intror eq_refl))) []).
Defined.

(** C3.  On a formula with a unit clause, one call of [apply_unit] takes
    some unit clause [{u}] of the formula, returns [True] and leaves the
    formula [propagate u]: the unit clause and every clause with [u] are
    gone, a clause with [-u] is there without [-u] (as the empty clause if
    nothing else was in it, which [is_unsat] then reports), and the other
    clauses are there as they were.  Without a unit clause the call returns
    [False]. *)
Theorem apply_unit_propagates (F : CNF.t) (o : oracle) :
  (has_unit F →
   ∃ u o', {[ u ]} ∈ CNF.clauses F ∧
     let F' := CNF.set_clauses F (propagate u (CNF.clauses F)) in
     CNF.apply_unit o F = (true, F', o') ∧
     {[ u ]} ∉ CNF.clauses F' ∧
     (∀ c : gset Z, c ∈ CNF.clauses F → u ∈ c → c ∉ CNF.clauses F') ∧
     (∀ c : gset Z, c ∈ CNF.clauses F → u ∉ c → - u ∈ c →
        c ∖ {[ - u ]} ∈ CNF.clauses F') ∧
     (∀ c : gset Z, c ∈ CNF.clauses F → u ∉ c → - u ∉ c →
        c ∈ CNF.clauses F') ∧
     (∀ c' : gset Z, c' ∈ CNF.clauses F' →
        ∃ c, c ∈ CNF.clauses F ∧ u ∉ c ∧ c' = c ∖ {[ - u ]}) ∧
     (∀ c : gset Z, c ∈ CNF.clauses F → u ∉ c → c ∖ {[ - u ]} = ∅ →
        CNF.is_unsat F' = true)) ∧
  (¬ has_unit F → (CNF.apply_unit o F).1.1 = false).
Proof.
  split.
  - intros Hu. destruct (apply_unit_found o F Hu) as (u & o' & Hin & Heq).
    exists u, o'. split; [done|]. simpl. split; [done|].
    assert (Hnot : ∀ c : gset Z, u ∈ c → c ∉ propagate u (CNF.clauses F)).
    { intros c Huc (c0 & ? & ? & ->)%elem_of_propagate. set_solver. }
    repeat split.
    + apply Hnot. set_solver.
    + intros c _. apply Hnot.
    + intros c Hc Hn _. apply elem_of_propagate. by exists c.
    + intros c Hc Hn Hn'. apply elem_of_propagate. exists c.
      repeat split; [done..|]. set_solver.
    + intros c'. by rewrite elem_of_propagate.
    + intros c Hc Hn He. apply is_unsat_spec. simpl.
      apply elem_of_propagate. by exists c.
  - intros Hno. by rewrite apply_unit_none.
Qed.

Lemma apply_unit_propagates_witness :
  has_unit (mk [[2]; [-2]; [2; 3]; [-2; 5]; [4; 5]]) ∧
  ¬ has_unit (mk [[1; 2]; [-1; -2]]) ∧
  (∃ u o', {[ u ]} ∈ CNF.clauses (mk [[2]; [-2]; [2; 3]; [-2; 5]; [4; 5]]) ∧
     CNF.apply_unit [0%nat] (mk [[2]; [-2]; [2; 3]; [-2; 5]; [4; 5]]) =
       (true,
        CNF.set_clauses (mk [[2]; [-2]; [2; 3]; [-2; 5]; [4; 5]])
          (propagate u
             (CNF.clauses (mk [[2]; [-2]; [2; 3]; [-2; 5]; [4; 5]]))),
        o')) ∧
  (CNF.apply_unit [0%nat] (mk [[1; 2]; [-1; -2]])).1.1 = false.
Proof.
  assert (H1 : has_unit (mk [[2]; [-2]; [2; 3]; [-2; 5]; [4; 5]])) by by_eval.
  assert (H2 : ¬ has_unit (mk [[1; 2]; [-1; -2]])) by by_eval.
  split; [exact H1|]. split; [exact H2|]. split.
  - destruct (proj1 (apply_unit_propagates _ [0%nat]) H1)
      as (u & o' & Hin & Heq & _).
    exists u, o'. split; [exact Hin|exact Heq].
  - exact (proj2 (apply_unit_propagates _ [0%nat]) H2).
Defined.

(** C4.  One call of [apply_pure] removes exactly the clauses that hold a
    pure literal, a literal [l] such that [-l] is not among the literals of
    the formula; every other clause stays as it is; the call returns [True]
    if and only if some clause was removed. *)
Theorem apply_pure_removes_pure_clauses (F : CNF.t) :
  ∃ b F', CNF.apply_pure F = (b, F') ∧
    (∀ c : gset Z, c ∈ CNF.clauses F' ↔
       c ∈ CNF.clauses F ∧ ¬ ∃ l, l ∈ c ∧ - l ∉ CNF.get_literals F) ∧
    (b = true ↔ ∃ c : gset Z, c ∈ CNF.clauses F ∧ c ∉ CNF.clauses F') ∧
    F' = CNF.set_clauses F (CNF.clauses F').
Proof.
  assert (Hchar : ∀ c : gset Z,
    c ∈ purge (pure_literals (CNF.clauses F)) (CNF.clauses F) ↔
    c ∈ CNF.clauses F ∧ ¬ ∃ l, l ∈ c ∧ - l ∉ CNF.get_literals F).
  { intros c. rewrite elem_of_purge. unfold CNF.get_literals. split.
    - intros [Hc Hno]. split; [done|]. intros (l & Hl & Hn).
      apply (Hno l Hl). apply elem_of_pure_literals. split; [|done].
      apply elem_of_literals_of. by exists c.
    - intros [Hc Hno]. split; [done|].
      intros l Hl [_ Hn]%elem_of_pure_literals. apply Hno. eauto. }
  destruct (decide (pure_literals (CNF.clauses F) = ∅)) as [HP|HP].
  - rewrite apply_pure_false by done. exists false, F.
    rewrite HP, purge_empty in Hchar.
    split; [done|]. split; [done|]. split; [|by rewrite set_clauses_id].
    split; [done|]. by intros (c & ? & ?).
  - rewrite apply_pure_true by done. eexists true, _. split; [done|]. simpl.
    split; [done|]. split; [|done]. split; [|done]. intros _.
    apply set_choose_L in HP as [l Hl].
    pose proof Hl as [(c & Hc & Hlc)%elem_of_literals_of _]%elem_of_pure_literals.
    exists c. split; [done|]. intros [_ Hno]%elem_of_purge. by apply (Hno l).
Qed.

(** C5.  Two runs of [dpll] on formulas with equal clause sets return the
    same boolean, whatever the two oracles choose. *)
Theorem dpll_outcome_deterministic (F G : CNF.t) (o1 o2 : oracle) :
  CNF.clauses F = CNF.clauses G →
  ∃ b o1' o2',
    CNF.dpll o1 F = Some (b, o1') ∧ CNF.dpll o2 G = Some (b, o2').
Proof. apply dpll_same_outcome. Qed.

Lemma dpll_outcome_deterministic_witness :
  CNF.clauses (mk [[1; 2]; [-1; -2]]) = CNF.clauses (mk [[-2; -1]; [2; 1; 2]]) ∧
  ∃ b o1' o2',
    CNF.dpll [0%nat] (mk [[1; 2]; [-1; -2]]) = Some (b, o1') ∧
    CNF.dpll [3%nat; 1%nat] (mk [[-2; -1]; [2; 1; 2]]) = Some (b, o2').
Proof.
  split; [by_eval|].
  apply (dpll_outcome_deterministic
           (mk [[1; 2]; [-1; -2]]) (mk [[-2; -1]; [2; 1; 2]])).
  by_eval.
Defined.

(** C6.  [add_literal] leaves the formula and every object on the heap as
    they were, and returns a new formula, a new object all of whose clauses
    are new objects, whose value is the clauses of the formula and the unit
    clause [{l}].  So the value of the copy depends on nothing that existed
    before the copy; a run of [dpll] on the copy changes nothing that
    existed before the copy and returns what the value of the copy
    determines; and the two branches of [apply_split] each compute the
    outcome of their own copy. *)
Theorem add_literal_copy_independent
    (h : gmap nat Py.obj) (f : nat) (F : CNF.t) (l : Z) :
  repr h f F →
  ∃ g h1 s nl nc,
    Py.add_literal f l h = Some (g, h1) ∧
    h ⊆ h1 ∧ repr h1 f F ∧
    h !! g = None ∧ h1 !! g = Some (Py.OCNF s nl nc) ∧
    (∀ k c, s !! k = Some c → h !! c = None) ∧
    repr h1 g (CNF.add_literal F l) ∧
    CNF.clauses (CNF.add_literal F l) = CNF.clauses F ∪ {[ {[ l ]} ]} ∧
    (∀ h1' : gmap nat Py.obj,
       (∀ a, h !! a = None → h1' !! a = h1 !! a) →
       repr h1' g (CNF.add_literal F l)) ∧
    (∀ n o r h2,
       Py.dpll n o g h1 = Some (r, h2) →
       h ⊆ h2 ∧ repr h2 f F ∧
       CNF.dpll_fuel n o (CNF.add_literal F l) = Some r) ∧
    (∀ n o,
       match CNF.apply_split (CNF.dpll_fuel n) o F with
       | Some r =>
           ∃ h', Py.apply_split (Py.dpll n) o f h = Some (r, h') ∧
                 h ⊆ h' ∧ repr h' f F
       | None => Py.apply_split (Py.dpll n) o f h = None
       end).
Proof.
  intros HR.
  destruct (add_literal_sim h f F l HR)
    as (g & h1 & s & nl & nc & Hadd & Hsub & Hg & HRg & Hlook & Hnew).
  exists g, h1, s, nl, nc.
  split; [done|]. split; [done|]. split; [by eapply repr_weaken|].
  split; [done|]. split; [done|]. split; [done|]. split; [done|].
  split; [apply clauses_add_literal|]. split; [|split].
  - intros h1' Hagree. destruct HRg as (s' & Hs' & Hd & Hv).
    rewrite Hlook in Hs'. injection Hs' as <- -> ->.
    exists s. split; [by rewrite Hagree|]. split; [done|].
    intros k c Hk. rewrite Hagree by by eapply Hnew. by apply Hv.
  - intros n o r h2 Hrun. pose proof (dpll_sim n o h1 g _ HRg) as Hsim.
    destruct (CNF.dpll_fuel n o (CNF.add_literal F l)) as [r'|];
      [|congruence].
    destruct Hsim as (h2' & Hrun' & Hfr). rewrite Hrun in Hrun'.
    injection Hrun' as <- <-.
    pose proof (frame_fresh_subseteq h h1 h2 g Hsub Hg Hfr).
    split; [done|]. split; [by eapply repr_weaken|done].
  - intros n o.
    pose proof (apply_split_sim (Py.dpll n) (CNF.dpll_fuel n) (dpll_sim n)
                  o h f F HR) as Hsp.
    destruct (CNF.apply_split (CNF.dpll_fuel n) o F) as [r|]; [|done].
    destruct Hsp as (h' & Hsp & Hsub'). exists h'.
    split; [done|]. split; [done|]. by eapply repr_weaken.
Qed.

Example ex_heap_mk : Py.mk [[1; 2]; [-1; -2]] ∅ = Some (2%nat, ex_heap).
Proof. by_eval. Qed.

Lemma add_literal_copy_independent_witness :
  repr ex_heap 2 ex_split ∧
  ∃ g h1,
    Py.add_literal 2 1 ex_heap = Some (g, h1) ∧
    ex_heap ⊆ h1 ∧ repr h1 2 ex_split ∧ ex_heap !! g = None ∧
    repr h1 g (CNF.add_literal ex_split 1).
Proof.
  assert (H : repr ex_heap 2 ex_split) by by_eval.
  split; [exact H|].
  destruct (add_literal_copy_independent ex_heap 2 ex_split 1 H)
    as (g & h1 & s & nl & nc & H1 & H2 & H3 & H4 & _ & _ & H5 & _).
  exists g, h1. split; [exact H1|]. split; [exact H2|]. split; [exact H3|].
  split; [exact H4|exact H5].
Defined.

(** C7.  On a formula without unit clause [apply_unit] returns [False] and
    leaves the formula as it is; on a formula without pure literal
    [apply_pure] returns [False] and leaves the formula as it is. *)
Theorem simplification_noop (F : CNF.t) (o : oracle) :
  (¬ has_unit F → CNF.apply_unit o F = (false, F, o)) ∧
  ((∀ l, l ∈ CNF.get_literals F → - l ∈ CNF.get_literals F) →
   CNF.apply_pure F = (false, F)).
Proof.
  split; [apply apply_unit_none|].
  intros Hno. apply apply_pure_false. apply set_eq. intros l.
  rewrite elem_of_pure_literals. split; [|set_solver].
  intros [Hl Hn]. destruct Hn. by apply Hno.
Qed.

Lemma simplification_noop_witness :
  ¬ has_unit (mk [[1; 2]; [-1; -2]]) ∧
  (∀ l, l ∈ CNF.get_literals (mk [[1; 2]; [-1; -2]]) →
        - l ∈ CNF.get_literals (mk [[1; 2]; [-1; -2]])) ∧
  CNF.apply_unit [4%nat] (mk [[1; 2]; [-1; -2]])
    = (false, mk [[1; 2]; [-1; -2]], [4%nat]) ∧
  CNF.apply_pure (mk [[1; 2]; [-1; -2]]) = (false, mk [[1; 2]; [-1; -2]]).
Proof.
  assert (H1 : ¬ has_unit (mk [[1; 2]; [-1; -2]])) by by_eval.
  assert (H2 : ∀ l, l ∈ CNF.get_literals (mk [[1; 2]; [-1; -2]]) →
                    - l ∈ CNF.get_literals (mk [[1; 2]; [-1; -2]])).
  { apply (set_Forall_elements
             (λ l, - l ∈ CNF.get_literals (mk [[1; 2]; [-1; -2]]))).
    refine (bool_decide_unpack _ _). vm_compute. exact I. }
  split; [exact H1|]. split; [exact H2|]. split.
  - exact (proj1 (simplification_noop _ [4%nat]) H1).
  - exact (proj2 (simplification_noop _ [4%nat]) H2).
Defined.

(** C8.  A formula built from a clause list with duplicates has the clause
    count and the [dpll] outcome of the formula built from a list [dd] that
    holds every clause once.  Two clauses built from the same literals in
    different orders are equal and have the same hash. *)
Theorem duplicate_clauses_irrelevant
    (cl dd : list (list Z)) (o1 o2 : oracle)
    (ls ls' : list Z) (frozenset_hash : gset Z → Z) :
  NoDup (Clause.init <$> dd) →
  (∀ c, c ∈ Clause.init <$> dd ↔ c ∈ Clause.init <$> cl) →
  (∀ l, l ∈ ls ↔ l ∈ ls') →
  CNF.num_clauses (mk cl) = CNF.num_clauses (mk dd) ∧
  CNF.num_clauses (mk cl) = Z.of_nat (length dd) ∧
  size (CNF.clauses (mk cl)) = length dd ∧
  (∃ b o1' o2',
     CNF.dpll o1 (mk cl) = Some (b, o1') ∧
     CNF.dpll o2 (mk dd) = Some (b, o2')) ∧
  Clause.eq (Clause.init ls) (Clause.init ls') = true ∧
  Clause.hash frozenset_hash (Clause.init ls)
    = Clause.hash frozenset_hash (Clause.init ls').
Proof.
  intros Hnd Hsame Hls.
  assert (Heq : CNF.clauses (mk cl) = CNF.clauses (mk dd)).
  { unfold mk. rewrite !clauses_of_list. apply set_eq. intros c.
    rewrite !elem_of_list_to_set. by rewrite Hsame. }
  assert (Hsz : size (CNF.clauses (mk dd)) = length dd).
  { unfold mk. rewrite clauses_of_list, size_list_to_set by done.
    by rewrite length_fmap. }
  assert (Hinit : Clause.init ls = Clause.init ls').
  { unfold Clause.init. apply set_eq. intros l.
    by rewrite !elem_of_list_to_set. }
  repeat split.
  - unfold mk, CNF.of_list, CNF.init. simpl. do 2 f_equal.
    unfold mk in Heq. by rewrite !clauses_of_list in Heq.
  - rewrite <- Hsz, <- Heq. reflexivity.
  - by rewrite Heq.
  - by apply dpll_same_outcome.
  - by apply clause_eq_spec.
  - by rewrite Hinit.
Qed.

Lemma duplicate_clauses_irrelevant_witness :
  NoDup (Clause.init <$> [[2; 1]; [-1]]) ∧
  (∀ c, c ∈ Clause.init <$> [[2; 1]; [-1]]
        ↔ c ∈ Clause.init <$> [[1; 2]; [-1]; [2; 1]; [1; 2; 1]]) ∧
  (∀ l, l ∈ [3; 4; 3] ↔ l ∈ [4; 3]) ∧
  CNF.num_clauses (mk [[1; 2]; [-1]; [2; 1]; [1; 2; 1]]) = 2 ∧
  (∃ b o1' o2',
     CNF.dpll [] (mk [[1; 2]; [-1]; [2; 1]; [1; 2; 1]]) = Some (b, o1') ∧
     CNF.dpll [1%nat] (mk [[2; 1]; [-1]]) = Some (b, o2')) ∧
  Clause.eq (Clause.init [3; 4; 3]) (Clause.init [4; 3]) = true.
Proof.
  assert (H1 : NoDup (Clause.init <$> [[2; 1]; [-1]])) by by_eval.
  assert (H2 : ∀ c, c ∈ Clause.init <$> [[2; 1]; [-1]]
                ↔ c ∈ Clause.init <$> [[1; 2]; [-1]; [2; 1]; [1; 2; 1]]).
  { intros c. split; revert c; apply Forall_forall; by_eval. }
  assert (H3 : ∀ l : Z, l ∈ [3; 4; 3] ↔ l ∈ [4; 3]).
  { intros l. split; revert l; apply Forall_forall; by_eval. }
  destruct (duplicate_clauses_irrelevant
              [[1; 2]; [-1]; [2; 1]; [1; 2; 1]] [[2; 1]; [-1]] [] [1%nat]
              [3; 4; 3] [4; 3] (λ _, 0) H1 H2 H3)
    as (_ & Hn & _ & Hd & He & _).
  split; [exact H1|]. split; [exact H2|]. split; [exact H3|].
  split; [exact Hn|]. split; [exact Hd|exact He].
Defined.

(** C9.  The claim asks [parse_dimacs] to raise on a token that is not an
    integer.  It does not: the [except ValueError] branch prints the
    message and goes on to [literals.add(literal)], where [literal] still
    holds the literal before.  On the file below the token [x] is read as
    a second [1], and the formula [{1, 2}] is returned. *)
Theorem parse_dimacs_keeps_non_integer_token :
  Dimacs.parse_dimacs [ln "p cnf 2 1"; ln "1 x 2 0"]
    = inr (CNF.init [Clause.init [1; 2]] (Some 2) (Some 1),
           [Dimacs.Invalid_literal_value 1 "x"]).
Proof. by_eval. Qed.

(** What [parse_dimacs] does on the other two kinds of malformed file of
    C9: a first line that is no header and a last clause without its [0]
    raise [ValueError]; a file without any line but comments has no header
    either and is read as the empty formula. *)
Example parse_dimacs_no_header :
  Dimacs.parse_dimacs [ln "c no header"; ln "1 2 0"]
    = inl (Dimacs.ValueError (Dimacs.Unexpected_character 1 "1")).
Proof. by_eval. Qed.

Example parse_dimacs_not_terminated :
  Dimacs.parse_dimacs [ln "p cnf 2 2"; ln "1 -2 0"; ln "2 -1"]
    = inl (Dimacs.ValueError (Dimacs.Last_clause_not_terminated 2)).
Proof. by_eval. Qed.

Example parse_dimacs_unbound_literal :
  Dimacs.parse_dimacs [ln "p cnf 2 1"; ln "x 2 0"]
    = inl (Dimacs.UnboundLocalError "literal").
Proof. by_eval. Qed.

Example parse_dimacs_comments_only :
  Dimacs.parse_dimacs [ln "c nothing here"]
    = inr (CNF.init [] (Some (-1)) (Some (-1)), []).
Proof. by_eval. Qed.

Example parse_dimacs_well_formed :
  Dimacs.parse_dimacs
    [ln "c example"; ln "p cnf 2 2"; ln "1 -2 0"; ln "2"; ln " -1 0  "]
    = inr (CNF.init [Clause.init [1; -2]; Clause.init [2; -1]]
             (Some 2) (Some 2), []).
Proof. by_eval. Qed.

(** C10.  A formula that holds an empty clause still holds one after a call
    of [apply_unit] and after a call of [apply_pure]: neither rule turns
    [is_unsat] from true to false. *)
Theorem empty_clause_preserved (F : CNF.t) (o : oracle) :
  CNF.is_unsat F = true →
  CNF.is_unsat (CNF.apply_unit o F).1.2 = true ∧
  CNF.is_unsat (CNF.apply_pure F).2 = true.
Proof.
  rewrite !is_unsat_spec. intros He. split.
  - destruct (CNF.apply_unit o F) as [[b F'] o'] eqn:Hau. simpl.
    apply apply_unit_inv in Hau as [(_ & -> & _)|(_ & u & _ & ->)]; [done|].
    simpl. apply elem_of_propagate. exists ∅. set_solver.
  - rewrite apply_pure_unfold. case_decide; [done|]. simpl.
    apply elem_of_purge. set_solver.
Qed.

Lemma empty_clause_preserved_witness :
  CNF.is_unsat (mk [[]; [3]; [-3; 4]; [5; 6]]) = true ∧
  CNF.is_unsat (CNF.apply_unit [] (mk [[]; [3]; [-3; 4]; [5; 6]])).1.2 = true ∧
  CNF.is_unsat (CNF.apply_pure (mk [[]; [3]; [-3; 4]; [5; 6]])).2 = true.
Proof.
  split; [by_eval|].
  apply (empty_clause_preserved (mk [[]; [3]; [-3; 4]; [5; 6]]) []).
  by_eval.
Defined.

(** * Further properties of the code *)

(** ** The simplification rules and the split, each on its own *)

Lemma size_set_map_le `{Countable A, Countable B} (f : A → B) (X : gset A) :
  (size (set_map f X : gset B) ≤ size X)%nat.
Proof.
  induction X as [|x X Hx IH] using set_ind_L.
  - by rewrite set_map_empty.
  - rewrite set_map_union_L, set_map_singleton_L.
    rewrite size_union_alt, size_singleton.
    rewrite (size_union {[ x ]} X) by set_solver. rewrite size_singleton.
    assert (size (set_map f X ∖ {[ f x ]} : gset B)
              ≤ size (set_map f X : gset B))%nat
      by (apply subseteq_size; set_solver).
    lia.
Qed.

(** A model of a formula with the unit clause [{u}] is a model of what
    propagation leaves. *)
Lemma propagate_models a u (cs : gset (gset Z)) :
  {[ u ]} ∈ cs → satisfies a cs → satisfies a (propagate u cs).
Proof.
  intros Hu Ha c' (c & Hc & Huc & ->)%elem_of_propagate.
  destruct (Ha c Hc) as (l & Hl & Ht). exists l. split; [|done].
  apply elem_of_difference. split; [done|].
  intros ->%elem_of_singleton.
  destruct (decide (u = 0)) as [->|Hnz]; [done|].
  rewrite lit_true_neg in Ht by done.
  rewrite (satisfies_unit a u cs) in Ht by done. done.
Qed.

Lemma propagate_size_lt u (cs : gset (gset Z)) :
  {[ u ]} ∈ cs → (size (propagate u cs) < size cs)%nat.
Proof.
  intros Hu. unfold propagate.
  eapply Nat.le_lt_trans; [apply size_set_map_le|].
  apply subset_size. split; [set_solver|].
  intros Hsub. specialize (Hsub _ Hu).
  apply elem_of_filter in Hsub as [Hn _]. set_solver.
Qed.

Lemma propagate_literals u (cs : gset (gset Z)) l :
  l ∈ CNF.literals_of (propagate u cs) →
  l ∈ CNF.literals_of cs ∧ l ≠ u ∧ l ≠ - u.
Proof.
  intros (c' & (c & Hc & Hu & ->)%elem_of_propagate & Hl)%elem_of_literals_of.
  apply elem_of_difference in Hl as [Hl Hne].
  split; [apply elem_of_literals_of; eauto|]. set_solver.
Qed.

(** X1.  [apply_unit] keeps satisfiability, whichever unit clause the
    iteration happens to meet first: every model of the formula is a model
    of the formula it leaves, and if the formula it leaves has a model, so
    has the formula. *)
Theorem apply_unit_keeps_satisfiability (F : CNF.t) (o : oracle) :
  (∀ a, satisfies a (CNF.clauses F) →
        satisfies a (CNF.clauses (CNF.apply_unit o F).1.2)) ∧
  (satisfiable (CNF.clauses (CNF.apply_unit o F).1.2) ↔
   satisfiable (CNF.clauses F)).
Proof.
  destruct (CNF.apply_unit o F) as [[b F'] o'] eqn:Hau. simpl.
  apply apply_unit_inv in Hau as [(_ & -> & _)|(_ & u & Hu & ->)]; [done|].
  simpl. split; [intros a; by apply propagate_models|].
  by apply propagate_equisat.
Qed.

Lemma apply_pure_clauses (F : CNF.t) :
  CNF.clauses (CNF.apply_pure F).2
    = purge (pure_literals (CNF.clauses F)) (CNF.clauses F).
Proof.
  rewrite apply_pure_unfold. case_decide as HP; [|done].
  simpl. by rewrite HP, purge_empty.
Qed.

Lemma apply_pure_result (F : CNF.t) :
  (CNF.apply_pure F).1 = bool_decide (pure_literals (CNF.clauses F) ≠ ∅).
Proof.
  destruct (decide (pure_literals (CNF.clauses F) = ∅)) as [HP|HP].
  - rewrite apply_pure_false by done. simpl.
    by rewrite bool_decide_eq_false_2 by (intros H; by apply H).
  - rewrite apply_pure_true by done. simpl.
    by rewrite bool_decide_eq_true_2.
Qed.

(** A model of what pure-literal elimination leaves, changed so that the
    pure literals hold, is a model of the formula. *)
Lemma purge_force_all a (cs : gset (gset Z)) :
  satisfies a (purge (pure_literals cs) cs) →
  satisfies (force_all (pure_literals cs) a) cs.
Proof.
  set (P := pure_literals cs).
  assert (HP : ∀ l, l ∈ P → l ∈ CNF.literals_of cs ∧ - l ∉ CNF.literals_of cs)
    by (intros l; apply elem_of_pure_literals).
  intros Ha c Hc.
  destruct (decide (∃ l, l ∈ c ∧ l ∈ P)) as [(l & Hlc & HlP)|Hno].
  - exists l. split; [done|]. destruct (HP l HlP) as [Hin Hnin].
    assert (l ≠ 0) by (intros ->; by apply Hnin).
    unfold lit_true, force_all. destruct (0 <? l) eqn:Hs.
    + rewrite Z.abs_eq by lia. by rewrite bool_decide_eq_true_2.
    + rewrite Z.abs_neq by lia.
      rewrite bool_decide_eq_false_2.
      * rewrite Z.opp_involutive. by rewrite bool_decide_eq_true_2.
      * intros ?%HP. tauto.
  - destruct (Ha c) as (l & Hlc & Ht).
    { apply elem_of_purge. split; [done|]. intros l ? ?. apply Hno. eauto. }
    exists l. split; [done|]. rewrite <- Ht.
    assert (l ∈ CNF.literals_of cs) by (apply elem_of_literals_of; eauto).
    assert (l ∉ P) by (intros ?; apply Hno; eauto).
    assert (- l ∉ P).
    { intros [_ Hn]%HP. by rewrite Z.opp_involutive in Hn. }
    unfold lit_true, force_all.
    destruct (Z.abs_spec l) as [[_ ->]|[_ ->]];
      rewrite ?Z.opp_involutive;
      by rewrite !bool_decide_eq_false_2 by done.
Qed.

(** X2.  [apply_pure] keeps satisfiability: it only removes clauses, so
    every model of the formula is a model of what is left, and a model of
    what is left, changed so that the pure literals hold, is a model of the
    formula. *)
Theorem apply_pure_keeps_satisfiability (F : CNF.t) :
  CNF.clauses (CNF.apply_pure F).2 ⊆ CNF.clauses F ∧
  (∀ a, satisfies a (CNF.clauses F) →
        satisfies a (CNF.clauses (CNF.apply_pure F).2)) ∧
  (∀ a, satisfies a (CNF.clauses (CNF.apply_pure F).2) →
        satisfies (force_all (pure_literals (CNF.clauses F)) a)
          (CNF.clauses F)) ∧
  (satisfiable (CNF.clauses (CNF.apply_pure F).2) ↔
   satisfiable (CNF.clauses F)).
Proof.
  rewrite apply_pure_clauses. split; [apply purge_subseteq|].
  split; [intros a; apply satisfies_mono, purge_subseteq|].
  split; [intros a; apply purge_force_all|apply purge_equisat].
Qed.

(** X3.  Splitting is a case distinction: an assignment satisfies
    [add_literal(l)] exactly if it satisfies the formula and makes [l]
    true, and the formula is satisfiable exactly if it is so with [l] added
    or with [-l] added.  This holds for every integer [l], whether it
    occurs in the formula or not. *)
Theorem add_literal_case_split (F : CNF.t) (l : Z) :
  (∀ a, satisfies a (CNF.clauses (CNF.add_literal F l)) ↔
        satisfies a (CNF.clauses F) ∧ lit_true a l = true) ∧
  (satisfiable (CNF.clauses F) ↔
   satisfiable (CNF.clauses (CNF.add_literal F l)) ∨
   satisfiable (CNF.clauses (CNF.add_literal F (- l)))).
Proof.
  rewrite !clauses_add_literal. split; [|apply split_equisat].
  intros a. split.
  - intros Ha. split.
    + eapply satisfies_mono; [|exact Ha]. set_solver.
    + apply (satisfies_unit a l (CNF.clauses F ∪ {[ {[ l ]} ]})); [|done].
      set_solver.
  - intros [Ha Hl] c [Hc| ->%elem_of_singleton]%elem_of_union; [by apply Ha|].
    exists l. split; [set_solver|done].
Qed.


Lemma apply_pure_subset (F : CNF.t) :
  (CNF.apply_pure F).1 = true →
  CNF.clauses (CNF.apply_pure F).2 ⊂ CNF.clauses F.
Proof.
  rewrite apply_pure_result, apply_pure_clauses.
  intros HP%bool_decide_eq_true.
  split; [apply purge_subseteq|]. intros Hsub. apply (purge_neq _ HP).
  apply set_eq. intros c. split; [apply purge_subseteq|apply Hsub].
Qed.

(** X4.  A call of [apply_unit] that returns [True] leaves fewer clauses
    than there were, no literal that was not there before, and neither the
    literal [u] of the unit clause it took nor [-u]. *)
Theorem apply_unit_shrinks (F : CNF.t) (o : oracle) :
  (CNF.apply_unit o F).1.1 = true →
  (size (CNF.clauses (CNF.apply_unit o F).1.2) < size (CNF.clauses F))%nat ∧
  CNF.get_literals (CNF.apply_unit o F).1.2 ⊆ CNF.get_literals F ∧
  ∃ u, {[ u ]} ∈ CNF.clauses F ∧
       u ∉ CNF.get_literals (CNF.apply_unit o F).1.2 ∧
       - u ∉ CNF.get_literals (CNF.apply_unit o F).1.2.
Proof.
  destruct (CNF.apply_unit o F) as [[b F'] o'] eqn:Hau. simpl. intros ->.
  apply apply_unit_inv in Hau as [(? & _)|(_ & u & Hu & ->)]; [done|].
  unfold CNF.get_literals. simpl.
  split; [by apply propagate_size_lt|]. split.
  - intros l Hl. by apply propagate_literals in Hl as [? _].
  - exists u. split; [done|].
    split; intros Hl; apply propagate_literals in Hl as (_ & ? & ?); lia.
Qed.

Lemma apply_unit_shrinks_witness :
  (CNF.apply_unit [] ex_units).1.1 = true ∧
  (size (CNF.clauses (CNF.apply_unit [] ex_units).1.2)
     < size (CNF.clauses ex_units))%nat.
Proof.
  assert (H : (CNF.apply_unit [] ex_units).1.1
              = true) by by_eval.
  split; [exact H|].
  exact (proj1 (apply_unit_shrinks _ [] H)).
Defined.

(** X5.  [apply_pure] returns [True] exactly if the formula has a pure
    literal; it then leaves a proper subset of the clauses, and in every
    case no literal that was pure in the formula occurs in what it
    leaves. *)
Theorem apply_pure_shrinks (F : CNF.t) :
  ((CNF.apply_pure F).1 = true ↔
   ∃ l, l ∈ CNF.get_literals F ∧ - l ∉ CNF.get_literals F) ∧
  ((CNF.apply_pure F).1 = true →
   CNF.clauses (CNF.apply_pure F).2 ⊂ CNF.clauses F ∧
   (size (CNF.clauses (CNF.apply_pure F).2) < size (CNF.clauses F))%nat) ∧
  (∀ l, l ∈ CNF.get_literals (CNF.apply_pure F).2 →
        l ∈ CNF.get_literals F ∧ - l ∈ CNF.get_literals F).
Proof.
  unfold CNF.get_literals. rewrite apply_pure_result, !apply_pure_clauses.
  split; [|split].
  - rewrite bool_decide_eq_true. split.
    + intros [l Hl%elem_of_pure_literals]%set_choose_L. eauto.
    + intros (l & Hl & Hn) HP.
      assert (l ∈ pure_literals (CNF.clauses F)) as Hin
        by by apply elem_of_pure_literals.
      rewrite HP in Hin. set_solver.
  - intros HP. rewrite <- apply_pure_result in HP.
    apply apply_pure_subset in HP. rewrite apply_pure_clauses in HP.
    split; [done|by apply subset_size].
  - intros l (c & [Hc Hno]%elem_of_purge & Hl)%elem_of_literals_of.
    assert (l ∈ CNF.literals_of (CNF.clauses F)) as Hin
      by (apply elem_of_literals_of; eauto).
    split; [done|].
    destruct (decide (- l ∈ CNF.literals_of (CNF.clauses F))) as [|Hn]; [done|].
    destruct (Hno l Hl). by apply elem_of_pure_literals.
Qed.

Lemma apply_pure_shrinks_witness :
  (CNF.apply_pure ex_pure).1 = true ∧
  (size (CNF.clauses (CNF.apply_pure ex_pure).2)
     < size (CNF.clauses ex_pure))%nat.
Proof.
  assert (H : (CNF.apply_pure ex_pure).1 = true)
    by by_eval.
  split; [exact H|].
  exact (proj2 (proj1 (proj2 (apply_pure_shrinks _)) H)).
Defined.

(** X6.  When [dpll] reaches the split, that is when both loops have ended
    and neither base case applies, the formula has a clause, every clause
    has at least two literals, every literal occurs with its negation, and
    there is a literal to pick: the [return False] that guards
    [apply_split] against a formula without literals is never taken
    there. *)
Theorem split_state (n m : nat) (o o1 : oracle) (F F1 F2 : CNF.t) :
  CNF.unit_loop n o F = Some (CNF.Fell F1 o1) →
  CNF.pure_loop m F1 = Some F2 →
  CNF.is_sat F2 = false → CNF.is_unsat F2 = false →
  CNF.clauses F2 ≠ ∅ ∧
  (∀ c : gset Z, c ∈ CNF.clauses F2 → (2 ≤ size c)%nat) ∧
  (∀ l, l ∈ CNF.get_literals F2 → - l ∈ CNF.get_literals F2) ∧
  (∀ o2, ∃ l o3, pick (elements (CNF.get_literals F2)) o2 = (Some l, o3) ∧
                 l ∈ CNF.get_literals F2).
Proof.
  intros Hul Hpl Hsat Hunsat.
  apply unit_loop_sound in Hul as (Hnu1 & _).
  apply pure_loop_sound in Hpl as (Hsub & Hpure & _).
  pose proof (no_unit_subseteq _ _ Hsub Hnu1) as Hnu2.
  split; [|split; [|split]].
  - intros H%is_sat_spec. congruence.
  - intros c Hc. apply is_unsat_false in Hunsat.
    destruct (size c) as [|[|k]] eqn:Hs; [| |lia].
    + apply size_empty_iff, leibniz_equiv_iff in Hs. by subst.
    + destruct Hnu2. by exists c.
  - intros l Hl.
    destruct (decide (- l ∈ CNF.get_literals F2)) as [|Hn]; [done|].
    assert (l ∈ pure_literals (CNF.clauses F2)) as Hin
      by by apply elem_of_pure_literals.
    rewrite Hpure in Hin. set_solver.
  - intros o2. destruct (get_literals_nonempty F2 Hsat Hunsat) as [l0 Hl0].
    destruct (pick (elements (CNF.get_literals F2)) o2) as [[l|] o3] eqn:Hp.
    + exists l, o3. split; [done|]. by apply pick_Some, elem_of_elements in Hp.
    + apply pick_None in Hp. apply elem_of_elements in Hl0.
      rewrite Hp in Hl0. by inversion Hl0.
Qed.

Lemma split_state_witness :
  CNF.unit_loop 1 [] ex_split = Some (CNF.Fell ex_split []) ∧
  CNF.pure_loop 1 ex_split = Some ex_split ∧
  CNF.is_sat ex_split = false ∧ CNF.is_unsat ex_split = false ∧
  ∀ l, l ∈ CNF.get_literals ex_split → - l ∈ CNF.get_literals ex_split.
Proof.
  assert (H1 : CNF.unit_loop 1 [] ex_split = Some (CNF.Fell ex_split []))
    by by_eval.
  assert (H2 : CNF.pure_loop 1 ex_split = Some ex_split) by by_eval.
  assert (H3 : CNF.is_sat ex_split = false) by by_eval.
  assert (H4 : CNF.is_unsat ex_split = false) by by_eval.
  split; [exact H1|]. split; [exact H2|]. split; [exact H3|].
  split; [exact H4|].
  exact (proj1 (proj2 (proj2 (split_state _ _ _ _ _ _ _ H1 H2 H3 H4)))).
Defined.

(** X7.  Called on a formula without literals, [apply_split] returns
    [False] and does not call [dpll].  The empty formula is such a
    formula, and [dpll] answers [True] on it: [apply_split] decides
    nothing by itself, it relies on the base cases that [dpll] checks
    first. *)
Theorem apply_split_without_literals
    (d : oracle → CNF.t → option (bool * oracle)) (o : oracle) (F : CNF.t) :
  CNF.get_literals F = ∅ →
  CNF.apply_split d o F = Some (false, o) ∧
  (CNF.clauses F = ∅ →
   satisfiable (CNF.clauses F) ∧ ∃ o', CNF.dpll o F = Some (true, o')).
Proof.
  intros Hl. split.
  - unfold CNF.apply_split. rewrite Hl, elements_empty.
    by destruct (pick_nil (A:=Z) o) as [o' ->].
  - intros He. assert (satisfiable (CNF.clauses F)) as Hs
      by (rewrite He; apply satisfiable_empty).
    split; [done|].
    destruct (dpll_spec o F) as (b & o' & Hd & Hb).
    assert (b = true) as -> by by apply Hb. eauto.
Qed.

Lemma apply_split_without_literals_witness :
  CNF.get_literals (mk []) = ∅ ∧
  CNF.apply_split (CNF.dpll_fuel 3) [] (mk []) = Some (false, []).
Proof.
  assert (H : CNF.get_literals (mk []) = ∅) by by_eval.
  split; [exact H|].
  exact (proj1 (apply_split_without_literals (CNF.dpll_fuel 3) [] (mk []) H)).
Defined.





(** X9.  [get_literals] is the union of the clauses, and [num_literals] of
    a formula built without that argument counts signed literals, not
    variables: it lies between the number of distinct variables and twice
    that number. *)
Theorem num_literals_counts_signed_literals (cl : list (gset Z)) :
  (∀ l, l ∈ CNF.get_literals (CNF.of_list cl) ↔ ∃ c, c ∈ cl ∧ l ∈ c) ∧
  CNF.num_literals (CNF.of_list cl)
    = Z.of_nat (size (CNF.get_literals (CNF.of_list cl))) ∧
  Z.of_nat (size (CNF.variables (CNF.of_list cl)))
    ≤ CNF.num_literals (CNF.of_list cl)
    ≤ 2 * Z.of_nat (size (CNF.variables (CNF.of_list cl))).
Proof.
  split; [|split; [done|]].
  - intros l. unfold CNF.get_literals. rewrite elem_of_literals_of.
    rewrite clauses_of_list. by setoid_rewrite elem_of_list_to_set.
  - change (CNF.num_literals (CNF.of_list cl))
      with (Z.of_nat (size (CNF.get_literals (CNF.of_list cl)))).
    set (L := CNF.get_literals (CNF.of_list cl)).
    change (CNF.variables (CNF.of_list cl)) with (set_map Z.abs L : gset Z).
    set (V := set_map Z.abs L : gset Z).
    pose proof (size_set_map_le Z.abs L).
    assert (L ⊆ V ∪ set_map Z.opp V) as Hsub.
    { intros l Hl. assert (Z.abs l ∈ V) by (apply elem_of_map; eauto).
      destruct (Z.abs_spec l) as [[_ Heq]|[_ Heq]].
      - apply elem_of_union_l. by rewrite <- Heq.
      - apply elem_of_union_r, elem_of_map. exists (Z.abs l).
        split; [lia|done]. }
    apply subseteq_size in Hsub.
    pose proof (size_union_alt V (set_map Z.opp V)) as Hu.
    pose proof (size_set_map_le Z.opp V).
    assert (size (set_map Z.opp V ∖ V : gset Z)
              ≤ size (set_map Z.opp V : gset Z))%nat
      by (apply subseteq_size; set_solver).
    fold V in H. lia.
Qed.

(** ** The parser, line by line *)

Lemma line_step_skipped n raw st :
  skipped raw = true → Dimacs.line_step n raw st = inr st.
Proof.
  unfold skipped, Dimacs.line_step.
  destruct (Dimacs.rstrip _) as [|c l]; [done|]. by intros ->.
Qed.

Lemma line_loop_skipped lines : ∀ n st,
  Forall (λ raw, skipped raw = true) lines →
  Dimacs.line_loop n lines st = inr st.
Proof.
  induction lines as [|raw lines IH]; intros n st Hl; [done|].
  apply Forall_cons in Hl as [Hr Hl]. simpl.
  rewrite line_step_skipped by done. by apply IH.
Qed.




(** X11.  A file with nothing but blank lines and comments, the empty file
    among them, is not rejected for its missing header: it is read as the
    formula without clauses, with both counts at their initial [-1]. *)
Theorem parse_without_content (lines : list string) :
  Forall (λ r, skipped r = true) lines →
  Dimacs.parse_dimacs lines
    = inr (CNF.init [] (Some (-1)) (Some (-1)), []).
Proof.
  intros H. unfold Dimacs.parse_dimacs. by rewrite line_loop_skipped.
Qed.

Lemma parse_without_content_witness :
  Forall (λ r, skipped r = true) [ln "c one"; ln "   "; ln "comment"] ∧
  Dimacs.parse_dimacs [ln "c one"; ln "   "; ln "comment"]
    = inr (CNF.init [] (Some (-1)) (Some (-1)), []).
Proof.
  assert (H : Forall (λ r, skipped r = true)
                [ln "c one"; ln "   "; ln "comment"]) by by_eval.
  split; [exact H|]. exact (parse_without_content _ H).
Defined.







#[global] Instance line_kind_eq_dec : EqDecision line_kind.
Proof. solve_decision. Defined.

#[global] Instance parser_state_eq_dec : EqDecision Dimacs.ParserState.
Proof. solve_decision. Defined.

#[global] Instance locals_eq_dec : EqDecision Dimacs.locals.
Proof. solve_decision. Defined.







(** ** What white space and the terminator do *)












(** ** The objects on the heap *)

(** X16.  The value model is what the objects compute: built by [mk] on
    any heap, a formula is an object whose [dpll], with any fuel and any
    oracle, returns what [CNF.dpll_fuel] returns on the value, runs out of
    fuel exactly when that does, and leaves every other object that was
    on the heap as it was.  With the fuel of [CNF.dpll] it returns, and it
    returns [True] exactly on the satisfiable formulas. *)
Theorem heap_dpll_refines (cl : list (list Z)) (h : gmap nat Py.obj)
    (n : nat) (o : oracle) :
  ∃ f h0,
    Py.mk cl h = Some (f, h0) ∧ h ⊆ h0 ∧
    match CNF.dpll_fuel n o (mk cl) with
    | Some r =>
        ∃ h', Py.dpll n o f h0 = Some (r, h') ∧
              ∀ a x, h0 !! a = Some x → a ≠ f → h' !! a = Some x
    | None => Py.dpll n o f h0 = None
    end ∧
    ∃ b o' h',
      Py.dpll (size (CNF.variables (mk cl)) + 2) o f h0 = Some ((b, o'), h') ∧
      (b = true ↔ satisfiable (CNF.clauses (mk cl))).
Proof.
  destruct (mk_sim cl h) as (f & h0 & Hmk & Hsub & HR).
  exists f, h0. split; [done|]. split; [done|]. split.
  - pose proof (dpll_sim n o h0 f _ HR) as Hsim.
    destruct (CNF.dpll_fuel n o (mk cl)); [|done].
    destruct Hsim as (h' & Hrun & Hfr). by exists h'.
  - destruct (dpll_spec o (mk cl)) as (b & o' & Hd & Hb).
    pose proof (dpll_sim (size (CNF.variables (mk cl)) + 2) o h0 f _ HR)
      as Hsim.
    unfold CNF.dpll in Hd. rewrite Hd in Hsim.
    destruct Hsim as (h' & Hrun & _). by exists b, o', h'.
Qed.

(** X17.  [dupe] returns a copy that shares nothing with the clause: it is
    a new object with the same literals, and removing a literal from the
    copy changes the copy alone.  Removing a literal that is not there
    changes nothing. *)
Theorem dupe_is_independent (h : gmap nat Py.obj) (c : nat) (k : gset Z)
    (l : Z) :
  h !! c = Some (Py.OClause k) →
  ∃ d h1 h2,
    Py.Clause_dupe c h = Some (d, h1) ∧ h !! d = None ∧ d ≠ c ∧
    h1 !! d = Some (Py.OClause k) ∧
    Py.Clause_remove d l h1 = Some ((), h2) ∧
    h2 !! d = Some (Py.OClause (k ∖ {[ l ]})) ∧
    h2 !! c = Some (Py.OClause k) ∧
    (∀ a, a ≠ d → h2 !! a = h !! a) ∧
    (l ∉ k → h2 = h1).
Proof.
  intros Hc. destruct (Clause_dupe_spec h c k Hc) as (d & Hd & Hfresh & Hsub).
  exists d, (<[ d := Py.OClause k ]> h),
         (<[ d := Py.OClause (k ∖ {[ l ]}) ]> h).
  assert (d ≠ c) as Hne by (intros ->; congruence).
  split; [done|]. split; [done|]. split; [done|].
  split; [by rewrite lookup_insert_eq|]. split.
  - rewrite (Clause_remove_spec _ d k l) by by rewrite lookup_insert_eq.
    by rewrite insert_insert_eq.
  - split; [by rewrite lookup_insert_eq|].
    split; [by rewrite lookup_insert_ne|].
    split; [intros a Ha; by rewrite lookup_insert_ne|].
    intros Hl. f_equal. f_equal. set_solver.
Qed.

Lemma dupe_is_independent_witness :
  ex_heap !! 0%nat = Some (Py.OClause {[ 1; 2 ]}) ∧
  ∃ d h1 h2,
    Py.Clause_dupe 0 ex_heap = Some (d, h1) ∧
    Py.Clause_remove d 2 h1 = Some ((), h2) ∧
    h2 !! d = Some (Py.OClause ({[ 1; 2 ]} ∖ {[ 2 ]})) ∧
    h2 !! 0%nat = Some (Py.OClause {[ 1; 2 ]}).
Proof.
  assert (H : ex_heap !! 0%nat = Some (Py.OClause {[ 1; 2 ]})) by by_eval.
  split; [exact H|].
  destruct (dupe_is_independent ex_heap 0 {[ 1; 2 ]} 2 H)
    as (d & h1 & h2 & H1 & _ & _ & _ & H2 & H3 & H4 & _).
  exists d, h1, h2. split; [exact H1|]. split; [exact H2|].
  split; [exact H3|exact H4].
Defined.

(** X18.  [apply_unit] and [apply_pure] on an object do to it what they do
    to its value, and change no other object: the clauses that stay are
    the very objects that were there, [Clause.remove] is only applied to a
    copy made for it, so no clause that existed before the call is
    modified, also when other formulas hold it. *)
Theorem heap_simplification_frame (h : gmap nat Py.obj) (f : nat)
    (F : CNF.t) (o : oracle) :
  repr h f F →
  (∃ h', Py.apply_unit o f h
           = Some (((CNF.apply_unit o F).1.1, (CNF.apply_unit o F).2), h') ∧
         repr h' f (CNF.apply_unit o F).1.2 ∧
         ∀ a x, h !! a = Some x → a ≠ f → h' !! a = Some x) ∧
  (∃ h', Py.apply_pure f h = Some ((CNF.apply_pure F).1, h') ∧
         repr h' f (CNF.apply_pure F).2 ∧
         ∀ a x, h !! a = Some x → a ≠ f → h' !! a = Some x).
Proof.
  intros HR. split.
  - destruct (apply_unit_sim o h f F HR) as (h' & H1 & H2 & H3). by exists h'.
  - destruct (apply_pure_sim h f F HR) as (h' & H1 & H2 & H3). by exists h'.
Qed.

Example ex_heap_units_mk :
  Py.mk [[2]; [-2; 3]; [2; 4]; [5; -3]] ∅ = Some (4%nat, ex_heap_units).
Proof. by_eval. Qed.

Lemma heap_simplification_frame_witness :
  repr ex_heap_units 4 ex_units ∧
  ex_heap_units !! 1%nat = Some (Py.OClause {[ -2; 3 ]}) ∧
  ex_heap_units !! 2%nat = Some (Py.OClause {[ 2; 4 ]}) ∧
  (CNF.apply_unit [] ex_units).1.1 = true ∧
  CNF.clauses (CNF.apply_unit [] ex_units).1.2 = {[ {[ 3 ]}; {[ 5; -3 ]} ]} ∧
  (CNF.apply_pure ex_units).1 = true ∧
  CNF.clauses (CNF.apply_pure ex_units).2 = {[ {[ 2 ]}; {[ -2; 3 ]} ]} ∧
  (∃ h', Py.apply_unit [] 4 ex_heap_units
           = Some (((CNF.apply_unit [] ex_units).1.1,
                    (CNF.apply_unit [] ex_units).2), h') ∧
         repr h' 4 (CNF.apply_unit [] ex_units).1.2 ∧
         h' !! 1%nat = Some (Py.OClause {[ -2; 3 ]}) ∧
         h' !! 2%nat = Some (Py.OClause {[ 2; 4 ]})) ∧
  (∃ h', Py.apply_pure 4 ex_heap_units
           = Some ((CNF.apply_pure ex_units).1, h') ∧
         repr h' 4 (CNF.apply_pure ex_units).2 ∧
         h' !! 1%nat = Some (Py.OClause {[ -2; 3 ]}) ∧
         h' !! 2%nat = Some (Py.OClause {[ 2; 4 ]})).
Proof.
  assert (H : repr ex_heap_units 4 ex_units) by by_eval.
  assert (H1 : ex_heap_units !! 1%nat = Some (Py.OClause {[ -2; 3 ]}))
    by by_eval.
  assert (H2 : ex_heap_units !! 2%nat = Some (Py.OClause {[ 2; 4 ]}))
    by by_eval.
  split; [exact H|]. split; [exact H1|]. split; [exact H2|].
  split; [by_eval|]. split; [by_eval|]. split; [by_eval|]. split; [by_eval|].
  destruct (heap_simplification_frame ex_heap_units 4 ex_units [] H)
    as [(h1 & Hu1 & Hu2 & Hu3) (h2 & Hp1 & Hp2 & Hp3)].
  split; [exists h1|exists h2].
  - split; [exact Hu1|]. split; [exact Hu2|].
    split; [exact (Hu3 _ _ H1 ltac:(discriminate))
           |exact (Hu3 _ _ H2 ltac:(discriminate))].
  - split; [exact Hp1|]. split; [exact Hp2|].
    split; [exact (Hp3 _ _ H1 ltac:(discriminate))
           |exact (Hp3 _ _ H2 ltac:(discriminate))].
Defined.

(** ** The texts of clauses and formulas *)

Lemma chars_app (a b : string) :
  list_ascii_of_string (a +:+ b)
    = list_ascii_of_string a ++ list_ascii_of_string b.
Proof. induction a as [|c a IH]; [done|]. simpl. by rewrite <- IH. Qed.

Lemma chars_inj (a b : string) :
  list_ascii_of_string a = list_ascii_of_string b → a = b.
Proof.
  intros H. rewrite <- (string_of_list_ascii_of_string a),
    <- (string_of_list_ascii_of_string b). by rewrite H.
Qed.

Lemma pretty_N_char_digit x : Dimacs.is_digit (pretty_N_char x) = true.
Proof. unfold pretty_N_char. by repeat case_match. Qed.

Lemma pretty_N_go_chars x : ∀ s,
  Forall numeral_char (list_ascii_of_string s) →
  Forall numeral_char (list_ascii_of_string (pretty_N_go x s)).
Proof.
  induction (N.lt_wf_0 x) as [x _ IH]; intros s Hs.
  assert (x = 0 ∨ 0 < x)%N as [->|?] by lia.
  - by rewrite pretty_N_go_0.
  - rewrite pretty_N_go_step by done. apply IH; [by apply N.div_lt|].
    simpl. constructor; [|done]. right. apply pretty_N_char_digit.
Qed.

Lemma pretty_N_go_length x : ∀ s,
  (String.length s ≤ String.length (pretty_N_go x s))%nat.
Proof.
  induction (N.lt_wf_0 x) as [x _ IH]; intros s.
  assert (x = 0 ∨ 0 < x)%N as [->|?] by lia; [by rewrite pretty_N_go_0|].
  rewrite pretty_N_go_step by done.
  etrans; [|by eapply IH, N.div_lt]. simpl. lia.
Qed.

Lemma pretty_N_chars (x : N) :
  Forall numeral_char (list_ascii_of_string (pretty x)) ∧ pretty x ≠ "".
Proof.
  unfold pretty, pretty_N. case_decide as Hx.
  - split; [|done]. simpl. constructor; [by right|constructor].
  - split; [by apply pretty_N_go_chars|].
    assert (0 < x)%N by lia. rewrite pretty_N_go_step by done.
    intros Hempty.
    pose proof (pretty_N_go_length (x `div` 10)
                  (String (pretty_N_char (x `mod` 10)) "")) as Hlen.
    rewrite Hempty in Hlen. simpl in Hlen. lia.
Qed.

Lemma str_chars (n : Z) :
  Forall numeral_char (list_ascii_of_string (Repr.str n)) ∧ Repr.str n ≠ "".
Proof.
  unfold Repr.str, pretty, pretty_Z. destruct n as [|p|p].
  - split; [|done]. simpl. constructor; [by right|constructor].
  - apply (pretty_N_chars (Npos p)).
  - destruct (pretty_N_chars (Npos p)) as [Hc _]. split; [|done].
    simpl. constructor; [by left|done].
Qed.

(** Two texts that agree and are cut at the first [c] agree on both
    sides of it. *)
Lemma split_at_char (c : ascii) (a a' b b' : list ascii) :
  c ∉ a → c ∉ a' → a ++ c :: b = a' ++ c :: b' → a = a' ∧ b = b'.
Proof.
  revert a'. induction a as [|x a IH]; intros [|x' a'] Ha Ha' Heq;
    simpl in *.
  - by injection Heq as ->.
  - injection Heq as <- _. set_solver.
  - injection Heq as -> _. set_solver.
  - injection Heq as -> Heq.
    destruct (IH a') as [-> ->]; [set_solver|set_solver|done|done].
Qed.

(** [join] can be undone when the separator has a character that the
    joined texts do not have, and none of them is empty. *)
Lemma join_inj (c : ascii) (s1 s2 : list ascii) (sep : string) l1 : ∀ l2,
  list_ascii_of_string sep = s1 ++ c :: s2 → c ∉ s1 →
  Forall (λ x, c ∉ list_ascii_of_string x ∧ x ≠ "") l1 →
  Forall (λ x, c ∉ list_ascii_of_string x ∧ x ≠ "") l2 →
  Repr.join sep l1 = Repr.join sep l2 → l1 = l2.
Proof.
  intros l2 Hsep Hs1.
  assert (Hcons : ∀ x y l,
    list_ascii_of_string (Repr.join sep (x :: y :: l))
      = (list_ascii_of_string x ++ s1) ++ c
          :: (s2 ++ list_ascii_of_string (Repr.join sep (y :: l)))).
  { intros x y l.
    change (Repr.join sep (x :: y :: l))
      with (x +:+ sep +:+ Repr.join sep (y :: l)).
    rewrite !chars_app, Hsep. by rewrite <- !app_assoc. }
  assert (Hone : ∀ x y z l,
    c ∉ list_ascii_of_string x →
    Repr.join sep [x] ≠ Repr.join sep (y :: z :: l)).
  { intros x y z l Hx Heq. apply (f_equal list_ascii_of_string) in Heq.
    rewrite Hcons in Heq. simpl in Heq. rewrite Heq in Hx.
    apply Hx. set_solver. }
  assert (Hnil : ∀ x l, x ≠ "" → Repr.join sep (x :: l) ≠ "").
  { intros x [|y l] Hx; [done|].
    change (Repr.join sep (x :: y :: l))
      with (x +:+ sep +:+ Repr.join sep (y :: l)).
    destruct x; [done|]. done. }
  revert l2. induction l1 as [|x l1 IH]; intros l2 H1 H2 Heq.
  - destruct l2 as [|y l2]; [done|].
    apply Forall_cons in H2 as [[_ Hy] _]. symmetry in Heq.
    by apply Hnil in Heq.
  - apply Forall_cons in H1 as [[Hx Hxe] H1].
    destruct l2 as [|y l2]; [by apply Hnil in Heq|].
    apply Forall_cons in H2 as [[Hy Hye] H2].
    destruct l1 as [|x' l1], l2 as [|y' l2].
    + simpl in Heq. by subst.
    + by apply Hone in Heq.
    + symmetry in Heq. by apply Hone in Heq.
    + apply (f_equal list_ascii_of_string) in Heq. rewrite !Hcons in Heq.
      apply split_at_char in Heq as [Hxy Hrest]; [|set_solver..].
      apply app_inv_tail, chars_inj in Hxy as ->.
      apply app_inv_head, chars_inj in Hrest.
      f_equal. by apply IH.
Qed.

Lemma sorted_set (s : gset Z) : list_to_set (Repr.sorted s) = s.
Proof.
  apply set_eq. intros x. rewrite elem_of_list_to_set. unfold Repr.sorted.
  by rewrite merge_sort_Permutation, elem_of_elements.
Qed.

Lemma str_inj (a b : Z) : Repr.str a = Repr.str b → a = b.
Proof. unfold Repr.str. apply (inj pretty). Qed.

Lemma clause_repr_inj (c1 c2 : gset Z) :
  Repr.Clause_repr c1 = Repr.Clause_repr c2 → c1 = c2.
Proof.
  unfold Repr.Clause_repr. intros Heq.
  apply (f_equal list_ascii_of_string) in Heq.
  rewrite !chars_app in Heq. simpl in Heq. injection Heq as Heq.
  apply app_inv_tail, chars_inj in Heq.
  apply (join_inj ","%char [] [" "%char]) in Heq; [|done|set_solver|..].
  - rewrite <- (sorted_set c1), <- (sorted_set c2).
    f_equal. revert Heq. apply (inj (fmap Repr.str)).
  - apply Forall_fmap, Forall_forall. intros n _. simpl.
    destruct (str_chars n) as [Hc Hn]. split; [|done].
    intros Hin. rewrite Forall_forall in Hc.
    by destruct (Hc _ Hin) as [?|?].
  - apply Forall_fmap, Forall_forall. intros n _. simpl.
    destruct (str_chars n) as [Hc Hn]. split; [|done].
    intros Hin. rewrite Forall_forall in Hc.
    by destruct (Hc _ Hin) as [?|?].
Qed.

Lemma join_chars (P : ascii → Prop) (sep : string) (l : list string) :
  Forall P (list_ascii_of_string sep) →
  Forall (λ x, Forall P (list_ascii_of_string x)) l →
  Forall P (list_ascii_of_string (Repr.join sep l)).
Proof.
  intros Hsep. induction 1 as [|x l Hx Hl IH]; [constructor|].
  destruct l as [|y l]; [done|].
  change (Repr.join sep (x :: y :: l))
    with (x +:+ sep +:+ Repr.join sep (y :: l)).
  rewrite !chars_app. by rewrite !Forall_app.
Qed.

Lemma clause_repr_chars (c : gset Z) :
  "^"%char ∉ list_ascii_of_string (Repr.Clause_repr c) ∧
  Repr.Clause_repr c ≠ "".
Proof.
  split; [|done]. unfold Repr.Clause_repr.
  rewrite !chars_app. simpl.
  assert (Forall (λ a, a ≠ "^"%char)
            (list_ascii_of_string
               (Repr.join ", " (Repr.str <$> Repr.sorted c)))) as Hj.
  { apply join_chars; [by repeat constructor|].
    apply Forall_fmap, Forall_forall. intros n _. simpl.
    destruct (str_chars n) as [Hc _].
    eapply Forall_impl; [exact Hc|].
    intros a [->|Ha]; [done|]. intros ->. done. }
  rewrite Forall_forall in Hj.
  intros [?|[Hin|Hin%list_elem_of_singleton]%elem_of_app]%elem_of_cons;
    [done|by apply (Hj _ Hin)|done].
Qed.

Lemma cnf_repr_inj (l1 l2 : list (gset Z)) :
  Repr.CNF_repr l1 = Repr.CNF_repr l2 → l1 = l2.
Proof.
  unfold Repr.CNF_repr. intros Heq.
  apply (f_equal list_ascii_of_string) in Heq.
  rewrite !chars_app in Heq. simpl in Heq. injection Heq as Heq.
  apply app_inv_tail, chars_inj in Heq.
  apply (join_inj "^"%char [" "%char] [" "%char]) in Heq;
    [|done|set_solver|..].
  - assert (Inj (=) (=) Repr.Clause_repr)
      by (intros ? ?; apply clause_repr_inj).
    revert Heq. apply (inj (fmap Repr.Clause_repr)).
  - apply Forall_fmap, Forall_forall. intros c _. apply clause_repr_chars.
  - apply Forall_fmap, Forall_forall. intros c _. apply clause_repr_chars.
Qed.

(** X19.  The text of a clause lists its literals once each, in ascending
    order, whatever order they were given in, and it determines the
    clause: two clauses with the same text are equal. *)
Theorem clause_repr_determines_clause (c1 c2 : gset Z) :
  Repr.sorted c1 ≡ₚ elements c1 ∧
  Sorted Z.le (Repr.sorted c1) ∧
  (Repr.Clause_repr c1 = Repr.Clause_repr c2 ↔ c1 = c2).
Proof.
  split; [apply merge_sort_Permutation|].
  split; [apply (Sorted_merge_sort Z.le)|].
  split; [apply clause_repr_inj|by intros ->].
Qed.

(** X20.  The text of a formula determines its clauses and the order in
    which they were iterated: formulas whose texts agree, whatever the
    two iteration orders were, have the same clauses. *)
Theorem cnf_repr_determines_clauses (F G : CNF.t)
    (order_F order_G : list (gset Z)) :
  order_F ≡ₚ elements (CNF.clauses F) →
  order_G ≡ₚ elements (CNF.clauses G) →
  Repr.CNF_repr order_F = Repr.CNF_repr order_G →
  order_F = order_G ∧ CNF.clauses F = CNF.clauses G.
Proof.
  intros HF HG Heq%cnf_repr_inj. split; [done|]. subst order_G.
  apply set_eq. intros c.
  by rewrite <- !elem_of_elements, <- HF, <- HG.
Qed.

Lemma cnf_repr_determines_clauses_witness :
  [{[ -1; -2 ]}; {[ 1; 2 ]}] ≡ₚ elements (CNF.clauses ex_split) ∧
  Repr.CNF_repr [{[ -1; -2 ]}; {[ 1; 2 ]}] = "CNF: {(-2, -1) ^ (1, 2)}" ∧
  ([{[ -1; -2 ]}; {[ 1; 2 ]}] : list (gset Z)) = [{[ -2; -1 ]}; {[ 2; 1 ]}].
Proof.
  assert (H1 : [{[ -1; -2 ]}; {[ 1; 2 ]}] ≡ₚ elements (CNF.clauses ex_split)).
  { apply NoDup_Permutation; [by_eval|apply NoDup_elements|].
    intros c. split; revert c; apply Forall_forall; by_eval. }
  assert (H2 : Repr.CNF_repr [{[ -1; -2 ]}; {[ 1; 2 ]}]
               = "CNF: {(-2, -1) ^ (1, 2)}") by by_eval.
  split; [exact H1|]. split; [exact H2|].
  assert (H3 : ([{[ -2; -1 ]}; {[ 2; 1 ]}] : list (gset Z))
               ≡ₚ elements (CNF.clauses ex_split)).
  { apply NoDup_Permutation; [by_eval|apply NoDup_elements|].
    intros c. split; revert c; apply Forall_forall; by_eval. }
  apply (cnf_repr_determines_clauses ex_split ex_split _ _ H1 H3).
  by_eval.
Defined.
